(** * chain_plugin: a shallow embedding of plugins/chain_plugin/chain_plugin.cpp

    The development follows the source file top-down: the exception
    classes and the effect monad first, then the genesis-timestamp
    arithmetic of [plugin_initialize], the reversible-block recovery
    ([recover_reversible_blocks]), the read-only and read-write APIs
    ([get_block], [push_block], [push_transaction], [push_transactions],
    [accept_transaction]) and finally the plugin life cycle
    ([plugin_initialize], [plugin_startup], [plugin_shutdown]).

    External collaborators (the ledger core, the fc codec, chainbase's
    allocator, the method registry) are Section variables; every closed
    example instantiates them explicitly. *)

From stdpp Require Import base option list strings gmap.
From Stdlib Require Import ZArith Lia Ascii.
From Stdlib Require Strings.Byte.

Local Open Scope Z_scope.

(** ** Exceptions

    The handlers of the source distinguish C++ exception classes by type:
    [std::runtime_error] (first handler of [recover_reversible_blocks]),
    [boost::interprocess::bad_alloc] (the shared-memory segment of the
    ledger core is exhausted), [fc::exception] and its subclasses
    ([FC_ASSERT], the chain exceptions raised by [EVT_ASSERT] and
    [EVT_THROW]), and everything else ([catch(...)]). *)

Inductive fc_type :=
  | assert_exception
  | parse_error_exception
  | block_id_type_exception
  | unknown_block_exception
  | packed_transaction_type_exception
  | fixed_reversible_db_exception
  | other_fc_exception (name : string).

Inductive exn :=
  | std_runtime_error (what : string)
  | interprocess_bad_alloc
  | fc_exception (ty : fc_type) (msg : string)
  | std_exception (what : string)
  | unknown_exception.

#[global] Instance fc_type_eq_dec : EqDecision fc_type.
Proof. solve_decision. Defined.

#[global] Instance exn_eq_dec : EqDecision exn.
Proof. solve_decision. Defined.

Definition is_bad_alloc (e : exn) : bool :=
  match e with interprocess_bad_alloc => true | _ => false end.

(** ** Outcomes and the effect monad

    A C++ expression either yields a value or throws; side effects that
    happened before a throw are kept (nothing is rolled back). *)

Inductive outcome (A : Type) :=
  | Ok (a : A)
  | Throw (e : exn).

Arguments Ok {A} a.
Arguments Throw {A} e.

(** What the caller of a value-returning C++ function observes: a
    returned value, an exception, or control reaching the closing brace
    without a [return] statement (no value is handed back). *)

Inductive completion (A : Type) :=
  | Returned (a : A)
  | Raised (e : exn)
  | FellOffEnd.

Arguments Returned {A} a.
Arguments Raised {A} e.
Arguments FellOffEnd {A}.

(** The behaviour of one call: a completion (a value or an exception,
    with the state the call leaves behind), or none. When control
    reaches the closing brace of a function that returns a value and no
    [return] statement was executed, the language gives the execution no
    meaning: nothing is known of the value, of the state, or of whether
    the call comes back at all. *)
Inductive behaviour (A S : Type) :=
  | Defined (o : outcome A) (s : S)
  | Undefined.

Arguments Defined {A S} o s.
Arguments Undefined {A S}.

Definition M (S A : Type) : Type := S -> outcome A * S.

Definition ret {S A} (a : A) : M S A := fun s => (Ok a, s).

Definition throw {S A} (e : exn) : M S A := fun s => (Throw e, s).

Definition bind {S A B} (m : M S A) (k : A -> M S B) : M S B :=
  fun s => match m s with
           | (Ok a, s') => k a s'
           | (Throw e, s') => (Throw e, s')
           end.

(** [try m catch h]: the handler sees the exception and the state at the
    point of the throw. *)
Definition try_catch {S A} (m : M S A) (h : exn -> M S A) : M S A :=
  fun s => match m s with
           | (Ok a, s') => (Ok a, s')
           | (Throw e, s') => h e s'
           end.

Definition lift {S A} (o : outcome A) : M S A := fun s => (o, s).

Definition modify {S} (f : S -> S) : M S unit := fun s => (Ok tt, f s).

Definition get {S} : M S S := fun s => (Ok s, s).

Notation "'do' x <- m ; k" := (bind m (fun x => k))
  (at level 10, x name, m at level 100, k at level 200).
Notation "'run' m ; k" := (bind m (fun _ => k))
  (at level 10, m at level 100, k at level 200).

(** [FC_ASSERT(cond, msg)] *)
Definition FC_ASSERT {S} (cond : bool) (msg : string) : M S unit :=
  if cond then ret tt else throw (fc_exception assert_exception msg).

(** ** Unsigned 32-bit arithmetic ([uint32_t num, start, end]) *)

Definition uint32_wrap (z : Z) : Z := z mod 2 ^ 32.

Definition uint32_add (a b : Z) : Z := uint32_wrap (a + b).
Definition uint32_sub (a b : Z) : Z := uint32_wrap (a - b).

Definition is_uint32 (z : Z) : Prop := 0 <= z < 2 ^ 32.

(** ** Genesis timestamp override, [plugin_initialize] lines 129-144 *)

(** [strcasecmp(a, b) == 0] on ASCII strings. *)
Definition to_lower (c : ascii) : ascii :=
  let n := nat_of_ascii c in
  if (Nat.leb 65 n && Nat.leb n 90)%bool then ascii_of_nat (n + 32) else c.

Fixpoint strcasecmp_eq (a b : string) : bool :=
  match a, b with
  | EmptyString, EmptyString => true
  | String x a', String y b' =>
      (Ascii.eqb (to_lower x) (to_lower y) && strcasecmp_eq a' b')%bool
  | _, _ => false
  end.

Section GenesisTimestamp.
(** [config::block_interval_ms], declared in evt/chain/config.hpp. *)
Variable block_interval_ms : Z.
(** [time_point::from_iso_string] of fc. *)
Variable from_iso_string : string -> outcome Z.

(** Lines 132-139; [now_us] is [fc::time_point::now()] in microseconds
    since the epoch (an [int64_t]); [/] and [%] truncate toward zero. *)
Definition genesis_timestamp_now (now_us : Z) : Z :=
  let genesis_timestamp := now_us in
  let epoch_ms := Z.quot genesis_timestamp 1000 in
  let diff_ms := Z.rem epoch_ms block_interval_ms in
  if 0 <? diff_ms then
    let delay_ms := block_interval_ms - diff_ms in
    genesis_timestamp + delay_ms * 10000
  else genesis_timestamp.

(** Lines 130-143. *)
Definition genesis_timestamp_override (tstr : string) (now_us : Z) : outcome Z :=
  if strcasecmp_eq tstr "now" then Ok (genesis_timestamp_now now_us)
  else from_iso_string tstr.

(** The property the specification asks of the stored timestamp [t]:
    it is the smallest time not earlier than [now_us] whose millisecond
    offset from the epoch is a multiple of the block interval. *)
Definition ms_offset (t_us : Z) : Z := Z.quot t_us 1000.

Definition on_interval_boundary (t_us : Z) : Prop :=
  Z.rem (ms_offset t_us) block_interval_ms = 0.

Definition next_interval_boundary (now_us t : Z) : Prop :=
  now_us <= t /\ on_interval_boundary t /\
  forall t', now_us <= t' -> on_interval_boundary t' -> t <= t'.
End GenesisTimestamp.

(** ** The file system and chainbase stores seen by the recovery

    A path is the list of its components; the paths handed to the plugin
    are resolved ones, so a directory is looked up under the path itself.
    A store directory holds the two shared-memory files of a chainbase
    database; the model keeps what [recover_reversible_blocks] observes:
    the dirty flag and the rows of [reversible_block_index] in the order
    of its [by_num] key (ascending block number, an [ordered_unique]
    index). The primary [id] of a row is assigned by the store and is not
    read by this file. *)

Abbreviation path := (list string).

Record reversible_block_object := {
  blocknum : Z;                      (* uint32_t *)
  packedblock : list Byte.byte       (* shared_string *)
}.

Record database := {
  db_dirty : bool;
  (* [None]: the segment holds no [reversible_block_index] yet *)
  db_index : option (list reversible_block_object)
}.

Inductive dir_entry :=
  | PlainDir                 (* a directory without database files *)
  | DbDir (d : database)     (* a chainbase database directory *)
  | BadDir (e : exn).        (* database files that cannot be mapped:
                                opening raises [e] *)

Abbreviation filesystem := (gmap path dir_entry).

Inductive open_flags := read_only | read_write.

Definition fresh_database : database :=
  {| db_dirty := false; db_index := None |}.

(** [chainbase::database(dir, flags, size, allow_dirty)]: a read-only open
    needs existing files; a read-write open creates them; unless
    [allow_dirty], a set dirty flag raises [std::runtime_error]. *)
Definition database_open (fs : filesystem) (dir : path) (flags : open_flags)
    (allow_dirty : bool) : outcome database :=
  match fs !! dir with
  | Some (DbDir d) =>
      if (negb allow_dirty && db_dirty d)%bool
      then Throw (std_runtime_error "database dirty flag set")
      else Ok d
  | Some (BadDir e) => Throw e
  | Some PlainDir | None =>
      match flags with
      | read_only => Throw (std_runtime_error "database file not found")
      | read_write => Ok fresh_database
      end
  end.

(** Destruction of a read-write database: the segment is flushed and the
    dirty flag cleared. *)
Definition database_close (dir : path) (rows : option (list reversible_block_object))
    : M filesystem unit :=
  modify (fun fs : filesystem =>
            <[dir := DbDir {| db_dirty := false; db_index := rows |}]> fs).

Definition fc_exists (p : path) : M filesystem bool :=
  fun fs => (Ok (bool_decide (is_Some (fs !! p))), fs).

Definition fc_canonical (p : path) : M filesystem path :=
  fun fs => match fs !! p with
            | Some _ => (Ok p, fs)
            | None => (Throw (fc_exception (other_fc_exception "exception")
                                "Unable to resolve path"), fs)
            end.

(** Where the path [q] goes when the directory [from] becomes [to]:
    [from/s] becomes [to/s]; a path that is not at or below [from] is not
    moved. *)
Definition rebase (from to q : path) : option path :=
  if decide (from `prefix_of` q) then Some (to ++ drop (length from) q) else None.

(** The entries at or below [from], each under its new path. *)
Definition moved_entries (from to : path) (fs : filesystem) : filesystem :=
  list_to_map
    (omap (fun kv : path * dir_entry =>
             (fun q => (q, snd kv)) <$> rebase from to (fst kv))
          (map_to_list fs)).

(** [fc::rename(from, to)]: the directory [from] with everything below
    it is found under [to] afterwards, and nothing is left at or below
    [from]. The one call of this file is made after the check that [to]
    does not exist. *)
Definition fc_rename (from to : path) : M filesystem unit :=
  fun fs => match fs !! from with
            | Some _ =>
                (Ok tt,
                 moved_entries from to fs
                   ∪ filter (fun kv : path * dir_entry => ~ from `prefix_of` fst kv) fs)
            | None => (Throw (fc_exception (other_fc_exception "exception")
                                "Rename failed"), fs)
            end.

(** The directory [p] and the directories above it, the root excepted:
    for [a/b/c] these are [a], [a/b] and [a/b/c]. *)
Fixpoint ancestors (p : path) : list path :=
  match p with
  | [] => []
  | c :: p' => [c] :: (cons c <$> ancestors p')
  end.

Definition create_directory (q : path) (fs : filesystem) : filesystem :=
  match fs !! q with
  | Some _ => fs
  | None => <[q := PlainDir]> fs
  end.

(** [fc::create_directories(p)]: [p] and every missing directory above
    it are created; a directory that exists is left as it is. *)
Definition fc_create_directories (p : path) : M filesystem unit :=
  modify (fun fs : filesystem => foldr create_directory fs (ancestors p)).

Definition filename (p : path) : string := List.last p EmptyString.
Definition parent_path (p : path) : path := removelast p.

(** ** [chain_plugin::recover_reversible_blocks] *)

Definition gap_message : string := "gap in reversible block database".

Definition invalid_path_message : string := "Invalid path to reversible directory".

Definition uniqueness_message : string :=
  "could not insert object, most likely a uniqueness constraint was violated".

Definition backup_exists_message : string :=
  "Cannot move existing reversible directory to already existing directory".

Section Recovery.
(** [signed_block], and the codec behind [get_block] / [set_block]
    ([fc::raw::unpack] and [fc::raw::pack]). *)
Variable signed_block : Type.
Variable unpack : list Byte.byte -> outcome signed_block.
Variable pack : signed_block -> list Byte.byte.
(** Whether a segment of [cache_size] bytes that already holds the given
    rows has room for one more object; when it has not, chainbase raises
    [boost::interprocess::bad_alloc]. *)
Variable fits : Z -> list reversible_block_object -> reversible_block_object -> bool.

(** Position of a new row in the [by_num] order. *)
Fixpoint insert_by_num (o : reversible_block_object)
    (rows : list reversible_block_object) : list reversible_block_object :=
  match rows with
  | [] => [o]
  | r :: rows' =>
      if blocknum o <? blocknum r then o :: r :: rows'
      else r :: insert_by_num o rows'
  end.

Definition has_blocknum (n : Z) (rows : list reversible_block_object) : bool :=
  existsb (fun r => blocknum r =? n) rows.

(** Locals of lines 381-383 together with the contents of
    [new_reversible]. *)
Record copy_state := {
  num : Z;
  start : Z;
  end_ : Z;
  new_rows : option (list reversible_block_object)
}.

(** [add_index<reversible_block_index>()]: a read-only database must
    already hold the index, a read-write one constructs it on demand. *)
Definition add_index_read_only (d : database) : outcome (list reversible_block_object) :=
  match db_index d with
  | Some rows => Ok rows
  | None => Throw (std_runtime_error "unable to find index in read only database")
  end.

Definition add_index_read_write : M copy_state unit :=
  modify (fun st => {| num := num st; start := start st; end_ := end_ st;
                       new_rows := Some (default [] (new_rows st)) |}).

(** Lines 395-398: [new_reversible.create<reversible_block_object>]. The
    constructor lambda runs first ([get_block], then [set_block]); the
    object is then linked into the index. *)
Definition create_reversible_block_object (cache_size : Z)
    (itr : reversible_block_object) : M copy_state unit :=
  do blk <- lift (unpack (packedblock itr));
  let ubo := {| blocknum := blocknum itr; packedblock := pack blk |} in
  fun st =>
    let rows := default [] (new_rows st) in
    if negb (fits cache_size rows ubo) then (Throw interprocess_bad_alloc, st)
    else if has_blocknum (blocknum ubo) rows then
      (Throw (std_exception uniqueness_message), st)
    else (Ok tt, {| num := num st; start := start st; end_ := end_ st;
                    new_rows := Some (insert_by_num ubo rows) |}).

Definition set_range (st : copy_state) (start' end' : Z) : copy_state :=
  {| num := num st; start := start'; end_ := end'; new_rows := new_rows st |}.

Definition count_block (st : copy_state) (n : Z) : copy_state :=
  {| num := uint32_add (num st) 1; start := start st; end_ := n;
     new_rows := new_rows st |}.

(** Lines 393-401, one iteration per remaining row of the old index. *)
Fixpoint copy_loop (cache_size : Z) (itr : list reversible_block_object)
    : M copy_state unit :=
  match itr with
  | [] => ret tt
  | r :: itr' =>
      do st <- get;
      run FC_ASSERT (blocknum r =? uint32_add (end_ st) 1) gap_message;
      run create_reversible_block_object cache_size r;
      run modify (fun st => count_block st (blocknum r));
      copy_loop cache_size itr'
  end.

(** The body of the [try] block, lines 385-401. *)
Definition copy_blocks (cache_size : Z) (old_reversible : database)
    : M copy_state unit :=
  do ubi <- lift (add_index_read_only old_reversible);
  run add_index_read_write;
  run match ubi with
      | itr :: _ =>
          modify (fun st => set_range st (blocknum itr) (uint32_sub (blocknum itr) 1))
      | [] => ret tt
      end;
  copy_loop cache_size ubi.

Definition initial_copy_state (new_reversible : database) : copy_state :=
  {| num := 0; start := 0; end_ := 0; new_rows := db_index new_reversible |}.

(** Lines 381-404: the [try] block with its empty [catch(...)]. *)
Definition copy_blocks_nothrow (cache_size : Z) (old_reversible new_reversible : database)
    : copy_state :=
  snd (try_catch (copy_blocks cache_size old_reversible) (fun _ => ret tt)
         (initial_copy_state new_reversible)).

(** Lines 406-412: the three forms of the closing log line. *)
Inductive summary :=
  | NoRecoverableBlocks
  | RecoveredOne (start : Z)
  | RecoveredMany (num start end_ : Z).

Definition recovery_summary (st : copy_state) : summary :=
  if num st =? 0 then NoRecoverableBlocks
  else if num st =? 1 then RecoveredOne (start st)
  else RecoveredMany (num st) (start st) (end_ st).

(** Lines 349-352. *)
Definition strip_dot (canonical : path) : path :=
  if String.eqb (filename canonical) "." then parent_path canonical
  else canonical.

(** Line 364; [now] is [fc::time_point::now()] rendered as a string. *)
Definition backup_path (reversible_dir : path) (now : string) : path :=
  parent_path reversible_dir
    ++ [String.append (filename reversible_dir) (String.append "-" now)].

(** Lines 349-374: choose the backup and the live directory; the result
    is the pair [(backup_dir, reversible_dir)]. *)
Definition prepare_directories (db_dir : path) (new_db_dir : option path)
    (now : string) : M filesystem (path * path) :=
  do canonical <- fc_canonical db_dir;
  let reversible_dir := strip_dot canonical in
  do dirs <-
    match new_db_dir with
    | Some nd => ret (reversible_dir, nd)
    | None =>
        let reversible_dir_name := filename reversible_dir in
        run FC_ASSERT (negb (String.eqb reversible_dir_name "."))
              invalid_path_message;
        let backup_dir := backup_path reversible_dir now in
        do existing <- fc_exists backup_dir;
        run FC_ASSERT (negb existing) backup_exists_message;
        run fc_rename reversible_dir backup_dir;
        ret (backup_dir, reversible_dir)
    end;
  run fc_create_directories (snd dirs);
  ret dirs.

(** Lines 378-414, once the directories are in place. *)
Definition rebuild (cache_size : Z) (backup_dir reversible_dir : path)
    : M filesystem bool :=
  do fs <- get;
  do old_reversible <- lift (database_open fs backup_dir read_only true);
  do new_reversible <- lift (database_open fs reversible_dir read_write false);
  let st := copy_blocks_nothrow cache_size old_reversible new_reversible in
  run database_close reversible_dir (new_rows st);
  ret true.

Definition is_runtime_error (e : exn) : bool :=
  match e with std_runtime_error _ => true | _ => false end.

Definition recover_reversible_blocks (db_dir : path) (cache_size : Z)
    (new_db_dir : option path) (now : string) : M filesystem bool :=
  fun fs =>
    match database_open fs db_dir read_only false with
    | Ok _ => (Ok false, fs)
    | Throw e =>
        if is_runtime_error e then
          (do dirs <- prepare_directories db_dir new_db_dir now;
           rebuild cache_size (fst dirs) (snd dirs)) fs
        else (Throw e, fs)
    end.
End Recovery.

(** [o] is the row [r] after [get_block] and [set_block]. *)
Definition reencoded {signed_block : Type}
    (unpack : list Byte.byte -> outcome signed_block)
    (pack : signed_block -> list Byte.byte)
    (r o : reversible_block_object) : Prop :=
  blocknum o = blocknum r /\
  exists blk, unpack (packedblock r) = Ok blk /\ packedblock o = pack blk.

(** Rows numbered [n], [n+1], ... *)
Fixpoint contiguous_from (n : Z) (rows : list reversible_block_object) : Prop :=
  match rows with
  | [] => True
  | r :: rows' => blocknum r = n /\ contiguous_from (n + 1) rows'
  end.

(** The state in which the loop starts (lines 386-392). *)
Definition loop_entry_state (ubi : list reversible_block_object) (st : copy_state)
    : copy_state :=
  let st0 := {| num := num st; start := start st; end_ := end_ st;
                new_rows := Some (default [] (new_rows st)) |} in
  match ubi with
  | itr :: _ => set_range st0 (blocknum itr) (uint32_sub (blocknum itr) 1)
  | [] => st0
  end.

(** ** Values exchanged with the RPC layer *)

(** [fc::sha256]: four 64-bit words ([_hash[0..3]]); block and transaction
    identifiers are such hashes. The default-constructed hash is zero. *)
Definition sha256 : Type := Z * Z * Z * Z.

Definition block_id_type := sha256.
Definition transaction_id_type := sha256.

Definition null_id : sha256 := (0, 0, 0, 0).

Definition hash_word1 (h : sha256) : Z :=
  match h with (_, w1, _, _) => w1 end.

(** The part of [fc::variant] that this file builds itself. *)
Inductive variant :=
  | v_null
  | v_uint (n : Z)
  | v_string (s : string)
  | v_hash (h : sha256)
  | v_object (fields : list (string * variant)).

(** [fc::mutable_variant_object::operator()(key, value)]: replaces the
    value of an existing key, appends a new key otherwise. *)
Fixpoint set_field (key : string) (v : variant) (fields : list (string * variant))
    : list (string * variant) :=
  match fields with
  | [] => [(key, v)]
  | (k, x) :: rest =>
      if String.eqb k key then (k, v) :: rest else (k, x) :: set_field key v rest
  end.

Definition get_object (v : variant) : outcome (list (string * variant)) :=
  match v with
  | v_object fields => Ok fields
  | _ => Throw (fc_exception (other_fc_exception "bad_cast_exception")
                  "Invalid cast to Object")
  end.

Inductive signal := SIGUSR1.

(** ** The read-only and read-write APIs, [namespace chain_apis] *)

Section ChainApis.
Variable ledger : Type.                 (* the state of [controller db] *)
Variable signed_block : Type.
Variable packed_transaction : Type.
Variable transaction_trace : Type.

Variable block_id : signed_block -> block_id_type.          (* [block->id()] *)
Variable block_num : signed_block -> Z.                     (* [block->block_num()] *)
Variable trace_id : transaction_trace -> transaction_id_type. (* [trx_trace_ptr->id] *)

(** The ledger core. *)
Variable fetch_block_by_id : ledger -> block_id_type -> outcome (option signed_block).
Variable fetch_block_by_number : ledger -> Z -> outcome (option signed_block).
Variable controller_push_block : signed_block -> M ledger unit.
Variable to_variant_with_abi : ledger -> transaction_trace -> outcome variant.

(** The method slots [incoming::methods::block_sync] and
    [incoming::methods::transaction_sync]: what a call of the slot does
    (a slot without provider raises). *)
Variable block_sync : signed_block -> M ledger unit.
Variable transaction_sync : packed_transaction -> bool -> M ledger transaction_trace.

(** The fc codec. [parse_block_id s] is
    [fc::json::from_string(s).as<block_id_type>()]. *)
Variable parse_block_id : string -> outcome block_id_type.
Variable to_uint64 : string -> outcome Z.
Variable block_to_variant : signed_block -> outcome variant.
Variable from_variant : variant -> outcome packed_transaction.
Variable to_detail_string : fc_type -> string -> string.

(** The handler installed by the macro [EVT_RETHROW_EXCEPTIONS(type,
    message)], declared in evt/chain/exceptions.hpp: the exception that
    leaves the handler when [e] was caught. *)
Variable EVT_RETHROW_EXCEPTIONS : fc_type -> string -> exn -> exn.

Inductive event :=
  | raised (sig : signal)
  | called_block_sync (block : signed_block)
  | called_transaction_sync (trx : packed_transaction) (flag : bool).

Record world := {
  w_ledger : ledger;
  w_events : list event      (* oldest first *)
}.

Definition emit (ev : event) : M world unit :=
  modify (fun w => {| w_ledger := w_ledger w; w_events := w_events w ++ [ev] |}).

Definition on_ledger {A} (m : M ledger A) : M world A :=
  fun w => let '(r, l) := m (w_ledger w) in
           (r, {| w_ledger := l; w_events := w_events w |}).

Definition read_ledger {A} (f : ledger -> outcome A) : M world A :=
  fun w => (f (w_ledger w), w).

(** [raise(sig)] of <signal.h>. *)
Definition raise (sig : signal) : M world unit := emit (raised sig).

Definition incoming_block_sync_method (block : signed_block) : M world unit :=
  run emit (called_block_sync block);
  on_ledger (block_sync block).

Definition incoming_transaction_sync_method (trx : packed_transaction) (flag : bool)
    : M world transaction_trace :=
  run emit (called_transaction_sync trx flag);
  on_ledger (transaction_sync trx flag).

(** Lines 320-328. *)
Definition accept_block (block : signed_block) : M world unit :=
  incoming_block_sync_method block.

Definition accept_transaction (trx : packed_transaction) : M world transaction_trace :=
  incoming_transaction_sync_method trx false.

Definition invalid_block_id_message : string := "Invalid block ID".
Definition could_not_find_block_message : string := "Could not find block".

(** Lines 470-476: the [try] block of [get_block] with the handler of
    [EVT_RETHROW_EXCEPTIONS]. The argument of [fetch_block_by_number] is
    a [uint32_t]. *)
Definition get_block_lookup (block_num_or_id : string) : M world (option signed_block) :=
  try_catch
    (do id <- lift (parse_block_id block_num_or_id);
     do block <- read_ledger (fun db => fetch_block_by_id db id);
     match block with
     | Some b => ret (Some b)
     | None =>
         do n <- lift (to_uint64 block_num_or_id);
         read_ledger (fun db => fetch_block_by_number db (uint32_wrap n))
     end)
    (fun e => throw (EVT_RETHROW_EXCEPTIONS block_id_type_exception
                       invalid_block_id_message e)).

(** Lines 467-486; line 478 is [EVT_ASSERT(block, unknown_block_exception,
    ...)]. *)
Definition get_block (block_num_or_id : string) : M world variant :=
  do found <- get_block_lookup block_num_or_id;
  match found with
  | None => throw (fc_exception unknown_block_exception could_not_find_block_message)
  | Some block =>
      do pretty_output <- lift (block_to_variant block);
      let ref_block_prefix := uint32_wrap (hash_word1 (block_id block)) in
      do fields <- lift (get_object pretty_output);
      ret (v_object
             (set_field "ref_block_prefix" (v_uint ref_block_prefix)
                (set_field "block_num" (v_uint (block_num block))
                   (set_field "id" (v_hash (block_id block)) fields))))
  end.

(** [push_block_results] is an empty struct. *)
Definition push_block_results : Type := unit.

(** Lines 490-498: the [try] statement, which is the whole body of
    [push_block]. The first handler names [boost::interprocess::bad_alloc]
    and no other class; the second rethrows. *)
Definition push_block_try (params : signed_block) : M world unit :=
  try_catch (on_ledger (controller_push_block params))
    (fun e => if is_bad_alloc e then raise SIGUSR1 else throw e).

(** Lines 488-499. [push_block] returns [push_block_results] by value and
    has no [return] statement: once the [try] statement has completed,
    because [db.push_block] returned or because the first handler ran,
    control reaches the closing brace and the call has no defined
    behaviour. Only an exception leaves the function in a defined way. *)
Definition push_block (params : signed_block)
    : world -> behaviour push_block_results world :=
  fun w =>
    match push_block_try params w with
    | (Ok _, _) => Undefined
    | (Throw e, w') => Defined (Throw e) w'
    end.

Definition push_transaction_results : Type := transaction_id_type * variant.

Definition invalid_packed_transaction_message : string := "Invalid packed transaction".

(** Lines 501-527. [id] and [pretty_output] are default-initialised and
    assigned at the end of the [try] block only. *)
Definition push_transaction (params : variant) : M world push_transaction_results :=
  try_catch
    (do pretty_input <-
       try_catch (lift (from_variant params))
         (fun e => throw (EVT_RETHROW_EXCEPTIONS packed_transaction_type_exception
                            invalid_packed_transaction_message e));
     do trx_trace <- incoming_transaction_sync_method pretty_input true;
     do pretty_output <- read_ledger (fun db => to_variant_with_abi db trx_trace);
     ret (trace_id trx_trace, pretty_output))
    (fun e =>
       if is_bad_alloc e then (run raise SIGUSR1; ret (null_id, v_null))
       else throw e).

Definition too_many_transactions_message : string :=
  "Attempt to push too many transactions at once".

Definition error_result (ty : fc_type) (msg : string) : push_transaction_results :=
  (null_id, v_object [("error"%string, v_string (to_detail_string ty msg))]).

(** Lines 536-544: the [for] loop; [result] is the vector built so far. *)
Fixpoint push_transactions_loop (params : list variant)
    (result : list push_transaction_results) : M world (list push_transaction_results) :=
  match params with
  | [] => ret result
  | item :: rest =>
      do r <- try_catch (push_transaction item)
                (fun e => match e with
                          | fc_exception ty msg => ret (error_result ty msg)
                          | _ => throw e
                          end);
      push_transactions_loop rest (result ++ [r])
  end.

(** Lines 531-544: the local [result] when control leaves the loop. *)
Definition push_transactions_result (params : list variant)
    : M world (list push_transaction_results) :=
  run FC_ASSERT (Nat.leb (length params) 1000) too_many_transactions_message;
  push_transactions_loop params [].

(** Lines 529-552. The function has no [return] statement: when the
    loop is done, or after [raise(SIGUSR1)], control reaches the closing
    brace and the vector [result] is destroyed. *)
Definition push_transactions (params : list variant)
    : world -> completion (list push_transaction_results) * world :=
  fun w =>
    match push_transactions_result params w with
    | (Ok _, w') => (FellOffEnd, w')
    | (Throw e, w') =>
        if is_bad_alloc e then (FellOffEnd, snd (raise SIGUSR1 w'))
        else (Raised e, w')
    end.
End ChainApis.

Arguments w_ledger {ledger signed_block packed_transaction} _.
Arguments w_events {ledger signed_block packed_transaction} _.
Arguments raised {signed_block packed_transaction} sig.
Arguments called_block_sync {signed_block packed_transaction} block.
Arguments called_transaction_sync {signed_block packed_transaction} trx flag.

(** The world after one call of the transaction-sync method. *)
Definition after_transaction_sync {ledger signed_block packed_transaction : Type}
    (w : world ledger signed_block packed_transaction) (trx : packed_transaction)
    (flag : bool) (l' : ledger) : world ledger signed_block packed_transaction :=
  {| w_ledger := l';
     w_events := w_events w ++ [called_transaction_sync trx flag] |}.

(** ** The plugin and its life cycle *)

(** The six signals of the controller that the plugin relays to the
    channel of the same name. *)
Inductive signal_kind :=
  | accepted_block_header
  | accepted_block
  | irreversible_block
  | accepted_transaction
  | applied_transaction
  | accepted_confirmation.

(** A [scoped_connection]: the subscription of the relay for one signal. *)
Record scoped_connection := { relays : signal_kind }.

(** The four method slots for which the plugin registers a provider, and
    the handle of a registration. *)
Inductive method_kind :=
  | get_block_by_number
  | get_block_by_id
  | get_head_block_id
  | get_last_irreversible_block_number.

Record provider_handle := { provides : method_kind }.

Section Plugin.
Variable variables_map : Type.
Variable controller_config : Type.
Variable controller : Type.

Variable block_interval_ms : Z.
Variable from_iso_string : string -> outcome Z.
(** [options.count("genesis-timestamp")] and
    [options.at("genesis-timestamp").as<string>()]. *)
Variable genesis_timestamp_option : variables_map -> option string.
(** Lines 145-234 (directory options, the replay and recovery switches,
    the genesis file): they raise or complete the configuration, and
    assign neither [chain] nor a connection. *)
Variable complete_config :
  variables_map -> Z -> controller_config -> outcome controller_config.
(** [controller(const config&)] and [controller::startup()]. *)
Variable make_controller : controller_config -> outcome controller.
Variable controller_startup : controller -> outcome controller.

(** The fields of [chain_plugin_impl] this file assigns. *)
Record chain_plugin_impl := {
  genesis_timestamp : Z;
  chain_config : option controller_config;
  chain : option controller;
  get_block_by_number_provider : option provider_handle;
  get_block_by_id_provider : option provider_handle;
  get_head_block_id_provider : option provider_handle;
  get_last_irreversible_block_number_provider : option provider_handle;
  accepted_block_header_connection : option scoped_connection;
  accepted_block_connection : option scoped_connection;
  irreversible_block_connection : option scoped_connection;
  accepted_transaction_connection : option scoped_connection;
  applied_transaction_connection : option scoped_connection;
  accepted_confirmation_connection : option scoped_connection
}.

(** The state after [chain_plugin_impl()]: [chain_config] is
    [controller::config()], every other optional is empty. *)
Definition new_chain_plugin_impl (default_config : controller_config) : chain_plugin_impl :=
  {| genesis_timestamp := 0;
     chain_config := Some default_config;
     chain := None;
     get_block_by_number_provider := None;
     get_block_by_id_provider := None;
     get_head_block_id_provider := None;
     get_last_irreversible_block_number_provider := None;
     accepted_block_header_connection := None;
     accepted_block_connection := None;
     irreversible_block_connection := None;
     accepted_transaction_connection := None;
     applied_transaction_connection := None;
     accepted_confirmation_connection := None |}.

Definition connections (my : chain_plugin_impl) : list (option scoped_connection) :=
  [accepted_block_header_connection my; accepted_block_connection my;
   irreversible_block_connection my; accepted_transaction_connection my;
   applied_transaction_connection my; accepted_confirmation_connection my].

(** Dereferencing an empty [fc::optional]. *)
Definition deref {A} (o : option A) : outcome A :=
  match o with
  | Some a => Ok a
  | None => Throw (fc_exception assert_exception "optional is not valid")
  end.

Definition bind_outcome {A B} (o : outcome A) (k : A -> outcome B) : outcome B :=
  match o with Ok a => k a | Throw e => Throw e end.

(** Lines 118-279. *)
Definition plugin_initialize (options : variables_map) (now_us : Z)
    (my : chain_plugin_impl) : outcome chain_plugin_impl :=
  bind_outcome
    (match genesis_timestamp_option options with
     | Some tstr => genesis_timestamp_override block_interval_ms from_iso_string tstr now_us
     | None => Ok (genesis_timestamp my)
     end) (fun ts =>
  bind_outcome (deref (chain_config my)) (fun cfg0 =>
  bind_outcome (complete_config options ts cfg0) (fun cfg =>
  bind_outcome (make_controller cfg) (fun c =>
  Ok {| genesis_timestamp := ts;
        chain_config := Some cfg;
        chain := Some c;
        get_block_by_number_provider := Some {| provides := get_block_by_number |};
        get_block_by_id_provider := Some {| provides := get_block_by_id |};
        get_head_block_id_provider := Some {| provides := get_head_block_id |};
        get_last_irreversible_block_number_provider :=
          Some {| provides := get_last_irreversible_block_number |};
        accepted_block_header_connection := Some {| relays := accepted_block_header |};
        accepted_block_connection := Some {| relays := accepted_block |};
        irreversible_block_connection := Some {| relays := irreversible_block |};
        accepted_transaction_connection := Some {| relays := accepted_transaction |};
        applied_transaction_connection := Some {| relays := applied_transaction |};
        accepted_confirmation_connection := Some {| relays := accepted_confirmation |} |})))).

(** Lines 281-297. *)
Definition plugin_startup (my : chain_plugin_impl) : outcome chain_plugin_impl :=
  bind_outcome (deref (chain my)) (fun c =>
  bind_outcome (controller_startup c) (fun c' =>
  Ok {| genesis_timestamp := genesis_timestamp my;
        chain_config := None;
        chain := Some c';
        get_block_by_number_provider := get_block_by_number_provider my;
        get_block_by_id_provider := get_block_by_id_provider my;
        get_head_block_id_provider := get_head_block_id_provider my;
        get_last_irreversible_block_number_provider :=
          get_last_irreversible_block_number_provider my;
        accepted_block_header_connection := accepted_block_header_connection my;
        accepted_block_connection := accepted_block_connection my;
        irreversible_block_connection := irreversible_block_connection my;
        accepted_transaction_connection := accepted_transaction_connection my;
        applied_transaction_connection := applied_transaction_connection my;
        accepted_confirmation_connection := accepted_confirmation_connection my |})).

(** Lines 299-308: the connections and the controller are reset, the
    provider handles are not. *)
Definition plugin_shutdown (my : chain_plugin_impl) : chain_plugin_impl :=
  {| genesis_timestamp := genesis_timestamp my;
     chain_config := chain_config my;
     chain := None;
     get_block_by_number_provider := get_block_by_number_provider my;
     get_block_by_id_provider := get_block_by_id_provider my;
     get_head_block_id_provider := get_head_block_id_provider my;
     get_last_irreversible_block_number_provider :=
       get_last_irreversible_block_number_provider my;
     accepted_block_header_connection := None;
     accepted_block_connection := None;
     irreversible_block_connection := None;
     accepted_transaction_connection := None;
     applied_transaction_connection := None;
     accepted_confirmation_connection := None |}.

(** Modelled from the spec: the life-cycle driver that calls
    [plugin_initialize], [plugin_startup] and [plugin_shutdown] belongs
    to the application framework, whose sources are absent. The spec
    gives the states Unconfigured, Configured, Started and Stopped with
    configure, start (only from Configured; [Starting] is the phase in
    which start runs) and stop (releases the tokens and destroys the
    ledger core from Started, a no-op from Configured or Stopped). A
    transition whose plugin function raises is fatal and has no
    successor state. *)
Inductive lifecycle := Unconfigured | Configured | Starting | Started | Stopped.

Record node := { phase : lifecycle; my : chain_plugin_impl }.

Inductive step : node -> node -> Prop :=
  | step_configure options now_us impl impl' :
      plugin_initialize options now_us impl = Ok impl' ->
      step {| phase := Unconfigured; my := impl |} {| phase := Configured; my := impl' |}
  | step_start_begin impl :
      step {| phase := Configured; my := impl |} {| phase := Starting; my := impl |}
  | step_start_end impl impl' :
      plugin_startup impl = Ok impl' ->
      step {| phase := Starting; my := impl |} {| phase := Started; my := impl' |}
  | step_stop impl :
      step {| phase := Started; my := impl |}
           {| phase := Stopped; my := plugin_shutdown impl |}
  | step_stop_configured impl :
      step {| phase := Configured; my := impl |} {| phase := Configured; my := impl |}
  | step_stop_stopped impl :
      step {| phase := Stopped; my := impl |} {| phase := Stopped; my := impl |}.

Inductive reachable (default_config : controller_config) : node -> Prop :=
  | reachable_initial :
      reachable default_config
        {| phase := Unconfigured; my := new_chain_plugin_impl default_config |}
  | reachable_step n n' :
      reachable default_config n -> step n n' -> reachable default_config n'.

Definition ledger_core_exists (n : node) : Prop := is_Some (chain (my n)).

Definition tokens_exist (n : node) : Prop :=
  Forall (fun c : option scoped_connection => is_Some c) (connections (my n)).

Definition some_token_exists (n : node) : Prop :=
  Exists (fun c : option scoped_connection => is_Some c) (connections (my n)).
End Plugin.

Arguments genesis_timestamp {controller_config controller} _.
Arguments chain_config {controller_config controller} _.
Arguments chain {controller_config controller} _.
Arguments connections {controller_config controller} _.
Arguments phase {controller_config controller} _.
Arguments my {controller_config controller} _.
Arguments ledger_core_exists {controller_config controller} _.
Arguments tokens_exist {controller_config controller} _.
Arguments some_token_exists {controller_config controller} _.

(** The phases in which the plugin holds a controller. *)
Definition holds_core (p : lifecycle) : Prop :=
  p = Configured \/ p = Starting \/ p = Started.

(** Either everything is wired or nothing is. *)
Definition wired {controller_config controller : Type}
    (n : node controller_config controller) : Prop :=
  is_Some (chain (my n)) /\
  Forall (fun c : option scoped_connection => is_Some c) (connections (my n)).

Definition unwired {controller_config controller : Type}
    (n : node controller_config controller) : Prop :=
  chain (my n) = None /\
  Forall (fun c : option scoped_connection => c = None) (connections (my n)).

Definition lifecycle_invariant {controller_config controller : Type}
    (n : node controller_config controller) : Prop :=
  match phase n with
  | Unconfigured | Stopped => unwired n
  | Configured | Starting | Started => wired n
  end.

(** ** Concrete stores for the closed examples of the recovery *)

Definition ex_unpack (bs : list Byte.byte) : outcome (list Byte.byte) :=
  match bs with
  | [] => Throw (fc_exception parse_error_exception "unexpected end of data")
  | _ => Ok bs
  end.

Definition ex_pack (blk : list Byte.byte) : list Byte.byte := blk.

Definition ex_fits (_ : Z) (_ : list reversible_block_object)
    (_ : reversible_block_object) : bool := true.

Definition ex_row (n : Z) : reversible_block_object :=
  {| blocknum := n; packedblock := [Byte.x01] |}.

Definition ex_reversible_dir : path := ["data"; "blocks"; "reversible"]%string.

Definition ex_now : string := "2018-06-26T08:00:00".

Definition ex_backup_dir : path :=
  ["data"; "blocks"; "reversible-2018-06-26T08:00:00"]%string.

Definition ex_dirty (rows : list reversible_block_object) : dir_entry :=
  DbDir {| db_dirty := true; db_index := Some rows |}.

Definition ex_clean (rows : list reversible_block_object) : dir_entry :=
  DbDir {| db_dirty := false; db_index := Some rows |}.

(** The data directory of the examples with its blocks directory. *)
Definition ex_fs_data : filesystem :=
  <[ ["data"; "blocks"]%string := PlainDir ]> {[ ["data"%string] := PlainDir ]}.

(** A dirty store with rows at heights 5 and 7. *)
Definition ex_fs_gap : filesystem :=
  <[ ex_reversible_dir := ex_dirty [ex_row 5; ex_row 7] ]> ex_fs_data.

(** A clean store with rows at heights 5, 6 and 7. *)
Definition ex_fs_clean : filesystem :=
  <[ ex_reversible_dir := ex_clean [ex_row 5; ex_row 6; ex_row 7] ]> ex_fs_data.

(** A store whose files cannot be mapped. *)
Definition ex_fs_unreadable : filesystem :=
  <[ ex_reversible_dir := BadDir (std_exception "interprocess_exception") ]>
    ex_fs_data.

(** A dirty store next to a directory that already carries the backup
    name. *)
Definition ex_fs_backup_taken : filesystem :=
  <[ ex_backup_dir := ex_clean [ex_row 1] ]> ex_fs_gap.

Definition ex_recover :=
  recover_reversible_blocks (list Byte.byte) ex_unpack ex_pack ex_fits.

(** The dirty store of [ex_fs_gap] with a directory below it. *)
Definition ex_fs_gap_child : filesystem :=
  <[ ex_reversible_dir ++ ["tmp"%string] := PlainDir ]> ex_fs_gap.

(** An alternate destination none of whose parents exists. *)
Definition ex_deep_dir : path := ["new"; "deep"; "reversible"]%string.

(** The file system after the in-place rename of the example store. *)
Definition ex_fs_gap_renamed : filesystem :=
  <[ ex_reversible_dir := PlainDir ]>
    (<[ ex_backup_dir := ex_dirty [ex_row 5; ex_row 7] ]> ex_fs_data).

(** ** A concrete ledger and codec for the closed examples of the APIs *)

(** Blocks are pairs of identifier and height, the ledger is the list of
    its blocks, a packed transaction is its text and a trace the pair of
    transaction identifier and text. *)
Definition ex_block : Type := block_id_type * Z.
Definition ex_ledger : Type := list ex_block.
Definition ex_trace : Type := transaction_id_type * string.

Definition ex_fetch_block_by_id (db : ex_ledger) (id : block_id_type)
    : outcome (option ex_block) :=
  Ok (List.find (fun b => bool_decide (fst b = id)) db).

Definition ex_fetch_block_by_number (db : ex_ledger) (n : Z)
    : outcome (option ex_block) :=
  Ok (List.find (fun b => snd b =? n) db).

(** A ledger of at most two blocks: a third block exhausts its memory. *)
Definition ex_controller_push_block (b : ex_block) : M ex_ledger unit :=
  fun db =>
    if Nat.leb 2 (length db) then (Throw interprocess_bad_alloc, db)
    else if snd b =? Z.of_nat (length db) + 1 then (Ok tt, db ++ [b])
    else (Throw (fc_exception (other_fc_exception "unlinkable_block_exception")
                   "unlinkable block"), db).

Definition ex_transaction_sync (trx : string) (flag : bool) : M ex_ledger ex_trace :=
  fun db => (Ok ((0, 0, 0, Z.of_nat (String.length trx)), trx), db).

Definition ex_to_variant_with_abi (db : ex_ledger) (t : ex_trace) : outcome variant :=
  Ok (v_object [("trx"%string, v_string (snd t))]).

Definition ex_from_variant (v : variant) : outcome string :=
  match v with
  | v_string s => Ok s
  | _ => Throw (fc_exception (other_fc_exception "bad_cast_exception")
                  "Invalid cast to string")
  end.

Definition ex_to_detail_string (ty : fc_type) (msg : string) : string := msg.

(** The handler reports the failure as an exception of the named type
    with the given message. *)
Definition ex_rethrow (ty : fc_type) (msg : string) (e : exn) : exn :=
  fc_exception ty msg.

Definition hex_digit (c : ascii) : option Z :=
  let n := Z.of_nat (nat_of_ascii c) in
  if (48 <=? n) && (n <=? 57) then Some (n - 48)
  else if (97 <=? n) && (n <=? 102) then Some (n - 87)
  else None.

Fixpoint hex_value (s : string) (acc : Z) : option Z :=
  match s with
  | EmptyString => Some acc
  | String c s' =>
      match hex_digit c with
      | Some d => hex_value s' (16 * acc + d)
      | None => None
      end
  end.

Definition ex_parse_block_id (s : string) : outcome block_id_type :=
  match hex_value s 0 with
  | Some v => Ok ((v / 2 ^ 192) mod 2 ^ 64, (v / 2 ^ 128) mod 2 ^ 64,
                  (v / 2 ^ 64) mod 2 ^ 64, v mod 2 ^ 64)
  | None => Throw (fc_exception (other_fc_exception "exception") "Invalid hex character")
  end.

Definition dec_digit (c : ascii) : option Z :=
  let n := Z.of_nat (nat_of_ascii c) in
  if (48 <=? n) && (n <=? 57) then Some (n - 48) else None.

Fixpoint dec_value (s : string) (acc : Z) : option Z :=
  match s with
  | EmptyString => Some acc
  | String c s' =>
      match dec_digit c with
      | Some d => dec_value s' (10 * acc + d)
      | None => None
      end
  end.

Definition ex_to_uint64 (s : string) : outcome Z :=
  match s with
  | EmptyString => Throw (fc_exception parse_error_exception "Could not parse uint64_t")
  | _ =>
      match dec_value s 0 with
      | Some v =>
          if v <? 2 ^ 64 then Ok v
          else Throw (fc_exception parse_error_exception "Could not parse uint64_t")
      | None => Throw (fc_exception parse_error_exception "Could not parse uint64_t")
      end
  end.

Definition ex_block_to_variant (b : ex_block) : outcome variant :=
  Ok (v_object [("producer"%string, v_string "evt")]).

Abbreviation ex_world := (world ex_ledger ex_block string).

(** A ledger holding block 1 only, with an empty event log. *)
Definition ex_block_1 : ex_block := ((1, 0, 0, 1), 1).

Definition ex_world_1 : ex_world :=
  {| w_ledger := [ex_block_1]; w_events := [] |}.

(** A ledger whose memory is used up. *)
Definition ex_world_full : ex_world :=
  {| w_ledger := [ex_block_1; ((2, 0, 0, 2), 2)]; w_events := [] |}.

(** A well-formed identifier (64 hexadecimal digits) of no block. *)
Definition ex_unknown_id : string :=
  "00000005a1b2c3d4e5f60718293a4b5c6d7e8f901a2b3c4d5e6f708192a3b4c5".

Definition ex_get_block :=
  get_block ex_ledger ex_block string fst snd ex_fetch_block_by_id
    ex_fetch_block_by_number ex_parse_block_id ex_to_uint64 ex_block_to_variant
    ex_rethrow.

Definition ex_push_block_try :=
  push_block_try ex_ledger ex_block string ex_controller_push_block.

Definition ex_push_block := push_block ex_ledger ex_block string ex_controller_push_block.

Definition ex_push_transaction :=
  push_transaction ex_ledger ex_block string ex_trace fst ex_to_variant_with_abi
    ex_transaction_sync ex_from_variant ex_rethrow.

Definition ex_push_transactions_result :=
  push_transactions_result ex_ledger ex_block string ex_trace fst
    ex_to_variant_with_abi ex_transaction_sync ex_from_variant
    ex_to_detail_string ex_rethrow.

Definition ex_push_transactions :=
  push_transactions ex_ledger ex_block string ex_trace fst
    ex_to_variant_with_abi ex_transaction_sync ex_from_variant
    ex_to_detail_string ex_rethrow.

(** A batch of three items whose second item is not a transaction. *)
Definition ex_batch : list variant := [v_string "tx1"; v_uint 7; v_string "tx3"].

(** ** A concrete plugin for the closed examples of the life cycle *)

(** No option is given, the configuration is a state size, the
    controller is the number of its head block and every collaborator
    succeeds. *)
Definition ex_reachable :=
  reachable unit Z Z 500 (fun _ => Ok 0) (fun _ => None)
    (fun _ _ cfg => Ok cfg) (fun _ => Ok 1) (fun c => Ok c) 1024.

Definition ex_configured_impl : chain_plugin_impl Z Z :=
  {| genesis_timestamp := 0;
     chain_config := Some 1024;
     chain := Some 1;
     get_block_by_number_provider := Some {| provides := get_block_by_number |};
     get_block_by_id_provider := Some {| provides := get_block_by_id |};
     get_head_block_id_provider := Some {| provides := get_head_block_id |};
     get_last_irreversible_block_number_provider :=
       Some {| provides := get_last_irreversible_block_number |};
     accepted_block_header_connection := Some {| relays := accepted_block_header |};
     accepted_block_connection := Some {| relays := accepted_block |};
     irreversible_block_connection := Some {| relays := irreversible_block |};
     accepted_transaction_connection := Some {| relays := accepted_transaction |};
     applied_transaction_connection := Some {| relays := applied_transaction |};
     accepted_confirmation_connection := Some {| relays := accepted_confirmation |} |}.

(** The node after configure. *)
Definition ex_configured_node : node Z Z :=
  {| phase := Configured; my := ex_configured_impl |}.

(** ** More of the file: definitions *)

(** *** [read_only::get_info]: the version string (lines 441-449) *)

Definition digits : string := "0123456789abcdef".

(** [digits[d]] *)
Definition digit_at (d : Z) : ascii :=
  match String.get (Z.to_nat d) digits with
  | Some c => c
  | None => "0"%char
  end.

(** The loop of [itoh]: [i] characters remain, [j] is the shift. *)
Fixpoint itoh_loop (n : Z) (i : nat) (j : Z) : string :=
  match i with
  | O => EmptyString
  | S i' => String (digit_at (Z.land (Z.shiftr n j) 15)) (itoh_loop n i' (j - 4))
  end.

(** [itoh(n, hlen)]; [hlen] defaults to [sizeof(uint32_t) << 1]. *)
Definition itoh (n : Z) (hlen : nat) : string :=
  itoh_loop n hlen ((Z.of_nat hlen - 1) * 4).

(** [itoh(static_cast<uint32_t>(app().version()))] *)
Definition get_info_server_version (app_version : Z) : string :=
  itoh (uint32_wrap app_version) 8.

(** *** Sizes and checkpoints in [plugin_initialize] *)

Definition uint64_wrap (z : Z) : Z := z mod 2 ^ 64.

(** Lines 175 and 178: [as<uint64_t>() * 1024 * 1024]. *)
Definition size_from_mb (mb : Z) : Z :=
  uint64_wrap (uint64_wrap (mb * 1024) * 1024).

(** The [uint32_t cache_size] that [recover_reversible_blocks] receives
    for a configured size (lines 195, 209, 216 and 337). *)
Definition recovery_cache_size (reversible_cache_size : Z) : Z :=
  uint32_wrap reversible_cache_size.

Section Checkpoints.
(** [fc::json::from_string(cp).as<std::pair<uint32_t, block_id_type>>()] *)
Variable parse_checkpoint : string -> outcome (Z * block_id_type).

(** Lines 164-167, the loop over the configured entries. The state is
    the member [my->loaded_checkpoints]: every pair is assigned as soon
    as it is read, so what was assigned before an entry fails to parse
    stays in the member. *)
Fixpoint load_checkpoints (cps : list string) : M (gmap Z block_id_type) unit :=
  match cps with
  | [] => ret tt
  | cp :: rest =>
      do item <- lift (parse_checkpoint cp);
      run modify (fun loaded_checkpoints : gmap Z block_id_type =>
                    <[fst item := snd item]> loaded_checkpoints);
      load_checkpoints rest
  end.
End Checkpoints.

(** [loaded_checkpoints[item.first] = item.second] for the pairs of
    [items], in order. *)
Definition assign_checkpoints (items : list (Z * block_id_type))
    (loaded_checkpoints : gmap Z block_id_type) : gmap Z block_id_type :=
  foldl (fun m item => <[fst item := snd item]> m) loaded_checkpoints items.

(** *** The replay and recovery switches of [plugin_initialize] *)

Record maintenance_options := {
  delete_all_blocks : bool;
  hard_replay_blockchain : bool;
  replay_blockchain : bool;
  fix_reversible_blocks : bool
}.

(** [fc::remove_all(p)]: [p] and everything below it. *)
Definition fc_remove_all (p : path) : M filesystem unit :=
  modify (fun fs : filesystem =>
            filter (fun kv : path * dir_entry => ~ p `prefix_of` fst kv) fs).

Definition fixed_message : string := "fixed corrupted reversible blocks database".

Section Maintenance.
Variable signed_block : Type.
Variable unpack : list Byte.byte -> outcome signed_block.
Variable pack : signed_block -> list Byte.byte.
Variable fits : Z -> list reversible_block_object -> reversible_block_object -> bool.
(** [config::reversible_blocks_dir_name], declared in evt/chain/config.hpp. *)
Variable reversible_blocks_dir_name : string.
(** [block_log::repair_log(blocks_dir)]: repairs the log and returns the
    directory in which it kept the previous blocks directory. *)
Variable repair_log : path -> M filesystem path.
(** Lines 198-200: the three [fc::copy] calls that bring the reversible
    directory and its two shared-memory files back from the backup. *)
Variable copy_reversible_back : path -> path -> M filesystem unit.

(** Lines 183-223. [state_dir] and [blocks_dir] are the resolved
    directories, [reversible_cache_size] the configured size in bytes and
    [now] the clock that the recovery reads. *)
Definition pre_start_maintenance (options : maintenance_options)
    (state_dir blocks_dir : path) (reversible_cache_size : Z) (now : string)
    : M filesystem unit :=
  if delete_all_blocks options then
    run fc_remove_all state_dir;
    fc_remove_all blocks_dir
  else if hard_replay_blockchain options then
    run fc_remove_all state_dir;
    do backup_dir <- repair_log blocks_dir;
    do existing <- fc_exists (backup_dir ++ [reversible_blocks_dir_name]);
    if (existing || fix_reversible_blocks options)%bool then
      do recovered <-
        recover_reversible_blocks signed_block unpack pack fits
          (backup_dir ++ [reversible_blocks_dir_name])
          (recovery_cache_size reversible_cache_size)
          (Some (blocks_dir ++ [reversible_blocks_dir_name])) now;
      if negb recovered then copy_reversible_back backup_dir blocks_dir
      else ret tt
    else ret tt
  else if replay_blockchain options then
    run fc_remove_all state_dir;
    if fix_reversible_blocks options then
      do recovered <-
        recover_reversible_blocks signed_block unpack pack fits
          (blocks_dir ++ [reversible_blocks_dir_name])
          (recovery_cache_size reversible_cache_size) None now;
      ret tt
    else ret tt
  else if fix_reversible_blocks options then
    do recovered <-
      recover_reversible_blocks signed_block unpack pack fits
        (blocks_dir ++ [reversible_blocks_dir_name])
        (recovery_cache_size reversible_cache_size) None now;
    throw (fc_exception fixed_reversible_db_exception fixed_message)
  else ret tt.
End Maintenance.

(** *** Reading a field of an object ([fc::variant_object::find]) *)

Fixpoint get_field (key : string) (fields : list (string * variant)) : option variant :=
  match fields with
  | [] => None
  | (k, x) :: rest => if String.eqb k key then Some x else get_field key rest
  end.

(** *** The entries of the vector built by [push_transactions] *)

Section BatchEntries.
Variable ledger : Type.
Variable signed_block : Type.
Variable packed_transaction : Type.
Variable transaction_trace : Type.
Variable trace_id : transaction_trace -> transaction_id_type.
Variable to_variant_with_abi : ledger -> transaction_trace -> outcome variant.
Variable transaction_sync : packed_transaction -> bool -> M ledger transaction_trace.
Variable from_variant : variant -> outcome packed_transaction.
Variable to_detail_string : fc_type -> string -> string.
Variable EVT_RETHROW_EXCEPTIONS : fc_type -> string -> exn -> exn.

(** [r] is what [push_transaction(item)] returned in some state of the
    node, or the error record of the [fc::exception] it raised there. *)
Definition item_result (item : variant) (r : push_transaction_results) : Prop :=
  exists w w1 : world ledger signed_block packed_transaction,
    push_transaction ledger signed_block packed_transaction transaction_trace
      trace_id to_variant_with_abi transaction_sync from_variant
      EVT_RETHROW_EXCEPTIONS item w = (Ok r, w1) \/
    exists ty msg,
      push_transaction ledger signed_block packed_transaction transaction_trace
        trace_id to_variant_with_abi transaction_sync from_variant
        EVT_RETHROW_EXCEPTIONS item w = (Throw (fc_exception ty msg), w1) /\
      r = error_result to_detail_string ty msg.
End BatchEntries.

(** *** [abi_json_to_bin] and [abi_bin_to_json] (lines 554-586) *)

Definition unknown_action_message : string := "Unknown action".

Section AbiTranslation.
(** [system_api]: the action table, the struct table and the codec of the
    [abi_serializer]. [get_action_type] yields the empty name for an
    unknown action. *)
Variable get_action_type : string -> string.
Variable struct_fields : string -> option variant.
Variable variant_to_binary : string -> variant -> outcome (list Byte.byte).
Variable binary_to_variant : string -> list Byte.byte -> outcome variant.
(** The handler of [EVT_RETHROW_EXCEPTIONS(invalid_action_args_exception,
    ...)] with its arguments [args], [action] and [proto], and the handler
    of [FC_CAPTURE_AND_RETHROW((params.action)(params.args))]. *)
Variable rethrow_invalid_args : variant -> string -> variant -> exn -> exn.
Variable FC_CAPTURE_AND_RETHROW : string -> variant -> exn -> exn.

(** Lines 554-562. *)
Definition action_abi_to_variant (action_type : string) : variant :=
  match struct_fields action_type with
  | Some fields => fields
  | None => v_null
  end.

Definition is_empty (s : string) : bool :=
  match s with EmptyString => true | _ => false end.

(** Lines 564-578. *)
Definition abi_json_to_bin (action : string) (args : variant) : outcome (list Byte.byte) :=
  let body :=
    let action_type := get_action_type action in
    if is_empty action_type then
      Throw (fc_exception (other_fc_exception "action_validate_exception")
               unknown_action_message)
    else
      match variant_to_binary action_type args with
      | Ok binargs => Ok binargs
      | Throw e =>
          Throw (rethrow_invalid_args args action (action_abi_to_variant action_type) e)
      end in
  match body with
  | Ok result => Ok result
  | Throw e => Throw (FC_CAPTURE_AND_RETHROW action args e)
  end.

(** Lines 580-586. *)
Definition abi_bin_to_json (action : string) (binargs : list Byte.byte) : outcome variant :=
  binary_to_variant (get_action_type action) binargs.
End AbiTranslation.

(** *** The accessors and the provider handles of the plugin *)

(** Lines 417-430: [chain_config()] and [chain()]. *)
Definition chain_config_accessor {controller_config controller : Type}
    (my : chain_plugin_impl controller_config controller) : outcome controller_config :=
  deref (chain_config my).

Definition chain_accessor {controller_config controller : Type}
    (my : chain_plugin_impl controller_config controller) : outcome controller :=
  deref (chain my).

Definition provider_handles {controller_config controller : Type}
    (my : chain_plugin_impl controller_config controller) : list (option provider_handle) :=
  [get_block_by_number_provider _ _ my; get_block_by_id_provider _ _ my;
   get_head_block_id_provider _ _ my;
   get_last_irreversible_block_number_provider _ _ my].

(** *** Heights that follow one another in [uint32_t] arithmetic *)

Fixpoint consecutive_from (n : Z) (rows : list reversible_block_object) : Prop :=
  match rows with
  | [] => True
  | r :: rows' => blocknum r = n /\ consecutive_from (uint32_add n 1) rows'
  end.

(** The directory that holds the rebuilt store. *)
Definition live_dir (db_dir : path) (new_db_dir : option path) : path :=
  match new_db_dir with
  | Some nd => nd
  | None => strip_dot db_dir
  end.

(** *** Concrete values for the closed examples *)

(** A checkpoint is written [height,tag]; the tag is the last word of the
    identifier. *)
Fixpoint ex_parse_pair (s : string) (h : Z) : option (Z * Z) :=
  match s with
  | EmptyString => None
  | String c s' =>
      if Ascii.eqb c ","%char then
        match dec_value s' 0 with
        | Some t => Some (h, t)
        | None => None
        end
      else
        match dec_digit c with
        | Some d => ex_parse_pair s' (10 * h + d)
        | None => None
        end
  end.

Definition ex_parse_checkpoint (cp : string) : outcome (Z * block_id_type) :=
  match ex_parse_pair cp 0 with
  | Some (h, t) => Ok (h, (0, 0, 0, t))
  | None => Throw (fc_exception parse_error_exception "Unexpected char")
  end.

(** A transaction-sync provider whose ledger runs out of memory once it
    holds two blocks. *)
Definition ex_transaction_sync_oom (trx : string) (flag : bool) : M ex_ledger ex_trace :=
  fun db =>
    if Nat.leb 2 (length db) then (Throw interprocess_bad_alloc, db)
    else ex_transaction_sync trx flag db.

(** A ledger in which the text [2] is both the identifier of the block
    at height 1 and the height of another block. *)
Definition ex_world_ambiguous : ex_world :=
  {| w_ledger := [((0, 0, 0, 2), 1); ((9, 9, 9, 9), 2)]; w_events := [] |}.

(** The plugin of the examples after start and after stop. *)
Definition ex_started_impl : chain_plugin_impl Z Z :=
  {| genesis_timestamp := 0;
     chain_config := None;
     chain := Some 1;
     get_block_by_number_provider := Some {| provides := get_block_by_number |};
     get_block_by_id_provider := Some {| provides := get_block_by_id |};
     get_head_block_id_provider := Some {| provides := get_head_block_id |};
     get_last_irreversible_block_number_provider :=
       Some {| provides := get_last_irreversible_block_number |};
     accepted_block_header_connection := Some {| relays := accepted_block_header |};
     accepted_block_connection := Some {| relays := accepted_block |};
     irreversible_block_connection := Some {| relays := irreversible_block |};
     accepted_transaction_connection := Some {| relays := accepted_transaction |};
     applied_transaction_connection := Some {| relays := applied_transaction |};
     accepted_confirmation_connection := Some {| relays := accepted_confirmation |} |}.

Definition ex_stopped_node : node Z Z :=
  {| phase := Stopped; my := plugin_shutdown Z Z ex_started_impl |}.

(** What the life cycle keeps of the configuration and of the provider
    handles. *)
Definition config_and_providers_invariant {controller_config controller : Type}
    (n : node controller_config controller) : Prop :=
  match phase n with
  | Unconfigured =>
      is_Some (chain_config (my n)) /\
      Forall (fun h : option provider_handle => h = None) (provider_handles (my n))
  | Configured | Starting =>
      is_Some (chain_config (my n)) /\
      Forall (fun h : option provider_handle => is_Some h) (provider_handles (my n))
  | Started =>
      chain_config (my n) = None /\
      Forall (fun h : option provider_handle => is_Some h) (provider_handles (my n))
  | Stopped =>
      chain_config (my n) = None /\
      Forall (fun h : option provider_handle => is_Some h) (provider_handles (my n)) /\
      chain (my n) = None
  end.

(** The directories of the examples, and a repair that moves the blocks
    directory aside and creates a new one. *)
Definition ex_state_dir : path := ["data"; "state"]%string.
Definition ex_blocks_dir : path := ["data"; "blocks"]%string.
Definition ex_blocks_backup : path := ["data"; "blocks-backup"]%string.

Definition ex_repair_log (blocks_dir : path) : M filesystem path :=
  run fc_rename blocks_dir ex_blocks_backup;
  run fc_create_directories blocks_dir;
  ret ex_blocks_backup.

Definition ex_copy_back (backup_dir blocks_dir : path) : M filesystem unit :=
  fun fs => match fs !! (backup_dir ++ ["reversible"%string]) with
            | Some d => (Ok tt, <[blocks_dir ++ ["reversible"%string] := d]> fs)
            | None => (Throw (fc_exception (other_fc_exception "exception")
                                "Copy failed"), fs)
            end.

Definition ex_maintenance :=
  pre_start_maintenance (list Byte.byte) ex_unpack ex_pack ex_fits "reversible"
    ex_repair_log ex_copy_back.

(** A node with a state directory, a blocks directory and a dirty
    reversible store. *)
Definition ex_fs_node : filesystem :=
  <[ ex_state_dir := PlainDir ]>
    (<[ ex_blocks_dir := PlainDir ]> ex_fs_gap).

Definition ex_only_fix : maintenance_options :=
  {| delete_all_blocks := false; hard_replay_blockchain := false;
     replay_blockchain := false; fix_reversible_blocks := true |}.

Definition ex_delete_all : maintenance_options :=
  {| delete_all_blocks := true; hard_replay_blockchain := true;
     replay_blockchain := true; fix_reversible_blocks := true |}.

Definition ex_only_replay : maintenance_options :=
  {| delete_all_blocks := false; hard_replay_blockchain := false;
     replay_blockchain := true; fix_reversible_blocks := false |}.

Definition ex_only_hard_replay : maintenance_options :=
  {| delete_all_blocks := false; hard_replay_blockchain := true;
     replay_blockchain := false; fix_reversible_blocks := false |}.

(** ** Deciding equality of file-system states

    The closed examples compare whole file systems; with decidable
    equality on directory entries the comparison is evaluated instead of
    being checked on the normal forms of the two maps. *)

#[global] Instance byte_eq_dec : EqDecision Byte.byte := Byte.byte_eq_dec.

#[global] Instance reversible_block_object_eq_dec :
  EqDecision reversible_block_object.
Proof. solve_decision. Defined.

#[global] Instance database_eq_dec : EqDecision database.
Proof. solve_decision. Defined.

#[global] Instance dir_entry_eq_dec : EqDecision dir_entry.
Proof. solve_decision. Defined.

#[global] Instance outcome_eq_dec `{EqDecision A} : EqDecision (outcome A).
Proof. solve_decision. Defined.

Ltac by_evaluation :=
  first [ refine (proj1 (bool_decide_eq_true _) _); vm_compute; reflexivity
        | vm_compute; reflexivity ].

(** * Properties *)

(** ** Genesis timestamp *)

Lemma genesis_timestamp_now_on_boundary interval now_us :
  Z.rem (Z.quot now_us 1000) interval <= 0 ->
  genesis_timestamp_now interval now_us = now_us.
Proof.
  intros H. unfold genesis_timestamp_now.
  destruct (Z.ltb_spec 0 (Z.rem (Z.quot now_us 1000) interval)); [lia|done].
Qed.

Lemma genesis_timestamp_now_shift interval now_us :
  0 < Z.rem (Z.quot now_us 1000) interval ->
  genesis_timestamp_now interval now_us =
  now_us + 10 * ((interval - Z.rem (Z.quot now_us 1000) interval) * 1000).
Proof.
  intros H. unfold genesis_timestamp_now.
  destruct (Z.ltb_spec 0 (Z.rem (Z.quot now_us 1000) interval)); lia.
Qed.

(** C5. With a block interval of 500 ms and the clock at
    1530000000250000 us (250 ms past a boundary) the stored timestamp is
    1530000002750000 us: ten times the delay was added, the result lies
    250 ms past a boundary and 2250 ms after the next boundary, which is
    1530000000500000 us. *)
Theorem genesis_timestamp_now_overshoots :
  genesis_timestamp_now 500 1530000000250000 = 1530000002750000 /\
  ~ next_interval_boundary 500 1530000000250000
      (genesis_timestamp_now 500 1530000000250000) /\
  next_interval_boundary 500 1530000000250000 1530000000500000.
Proof.
  split; [reflexivity|]. split.
  - intros (_ & Hb & _). vm_compute in Hb. discriminate Hb.
  - split; [lia|]. split; [reflexivity|].
    intros t' Hle Hb. unfold on_interval_boundary, ms_offset in Hb.
    rewrite Z.rem_mod_nonneg in Hb.
    + rewrite Z.quot_div_nonneg in Hb by lia.
      assert (1530000000250 <= t' / 1000) by (apply Z.div_le_lower_bound; lia).
      destruct (Z.le_gt_cases 1530000000500000 t') as [|Hlt]; [done|exfalso].
      assert (t' / 1000 < 1530000000500) by (apply Z.div_lt_upper_bound; lia).
      pose proof (Z.div_mod (t' / 1000) 500 ltac:(lia)) as Hdm.
      rewrite Hb in Hdm. lia.
    + apply Z.quot_pos; lia.
    + lia.
Qed.


(** ** The file system *)

Lemma elem_of_ancestors (q p : path) :
  q ∈ ancestors p <-> q <> [] /\ q `prefix_of` p.
Proof.
  revert q. induction p as [|c p IH]; intros q; simpl.
  - split; [by intros ?%elem_of_nil|].
    intros [Hne Hp]. apply prefix_nil_inv in Hp. done.
  - rewrite elem_of_cons, list_elem_of_fmap. split.
    + intros [->|(q' & -> & Hq')].
      * split; [done|]. by exists p.
      * apply IH in Hq' as [_ Hp]. split; [done|]. by apply prefix_cons.
    + intros [Hne Hp]. destruct q as [|c' q]; [done|].
      apply prefix_cons_inv_1 in Hp as Hc. subst c'.
      apply prefix_cons_inv_2 in Hp.
      destruct q as [|c' q]; [by left|]. right.
      exists (c' :: q). split; [done|]. apply IH. by split.
Qed.

Lemma create_directory_lookup (q' : path) (fs : filesystem) (q : path) :
  create_directory q' fs !! q =
  match fs !! q with
  | Some v => Some v
  | None => if decide (q = q') then Some PlainDir else None
  end.
Proof.
  unfold create_directory. destruct (fs !! q') as [d|] eqn:H.
  - destruct (fs !! q) eqn:Hq; [done|].
    destruct (decide (q = q')) as [->|Hne]; [congruence|done].
  - destruct (decide (q = q')) as [->|Hne].
    + by rewrite lookup_insert_eq, H.
    + rewrite lookup_insert_ne by done. by destruct (fs !! q).
Qed.

Lemma create_directories_lookup (p : path) (fs : filesystem) (q : path) :
  snd (fc_create_directories p fs) !! q =
  match fs !! q with
  | Some v => Some v
  | None => if decide (q <> [] /\ q `prefix_of` p) then Some PlainDir else None
  end.
Proof.
  unfold fc_create_directories, modify. simpl snd.
  assert (H : forall l : list path,
             foldr create_directory fs l !! q =
             match fs !! q with
             | Some v => Some v
             | None => if decide (q ∈ l) then Some PlainDir else None
             end).
  { induction l as [|q' l IH]; simpl.
    - destruct (fs !! q); [done|].
      destruct (decide (q ∈ [])) as [Hin|]; [by apply elem_of_nil in Hin|done].
    - rewrite create_directory_lookup, IH. destruct (fs !! q); [done|].
      destruct (decide (q ∈ l)) as [Hin|Hin];
        destruct (decide (q ∈ q' :: l)) as [Hin'|Hin'];
        destruct (decide (q = q')) as [Heq|Hne]; try done;
        try (destruct Hin'; apply elem_of_cons; by auto);
        try (apply elem_of_cons in Hin' as [?|?]; done). }
  rewrite H. destruct (fs !! q); [done|].
  destruct (decide (q ∈ ancestors p)) as [Hin|Hin];
    destruct (decide (q <> [] /\ q `prefix_of` p)) as [Hp|Hp]; try done.
  - destruct Hp. by apply elem_of_ancestors.
  - destruct Hin. by apply elem_of_ancestors.
Qed.

Lemma create_directories_ok (p : path) (fs : filesystem) :
  fst (fc_create_directories p fs) = Ok tt.
Proof. reflexivity. Qed.

Lemma rebase_Some (from to q q' : path) :
  rebase from to q = Some q' <-> exists s, q = from ++ s /\ q' = to ++ s.
Proof.
  unfold rebase. destruct (decide (from `prefix_of` q)) as [[s ->]|Hn].
  - rewrite drop_app_length. split.
    + intros [= <-]. by exists s.
    + intros (s' & ->%app_inv_head & ->). done.
  - split; [done|]. intros (s & -> & _). destruct Hn. by exists s.
Qed.

Lemma moved_entries_lookup_Some (from to : path) (fs : filesystem) (q : path) v :
  moved_entries from to fs !! q = Some v <->
  exists s, q = to ++ s /\ fs !! (from ++ s) = Some v.
Proof.
  unfold moved_entries.
  set (f := fun kv : path * dir_entry =>
              (fun q => (q, snd kv)) <$> rebase from to (fst kv)).
  assert (Hf : forall k x q' v', f (k, x) = Some (q', v') <->
                 exists s, k = from ++ s /\ q' = to ++ s /\ v' = x).
  { intros k x q' v'. unfold f. simpl. split.
    - destruct (rebase from to k) as [q0|] eqn:Hr; [|done]. simpl.
      intros [= <- <-]. apply rebase_Some in Hr as (s & -> & ->). by exists s.
    - intros (s & -> & -> & ->).
      assert (Hr : rebase from to (from ++ s) = Some (to ++ s))
        by (apply rebase_Some; by exists s).
      by rewrite Hr. }
  assert (Hnd : NoDup (omap f (map_to_list fs)).*1).
  { pose proof (NoDup_fst_map_to_list fs) as Hl.
    induction (map_to_list fs) as [|[k x] l IH]; simpl; [constructor|].
    apply NoDup_cons in Hl as [Hk Hl]. specialize (IH Hl).
    destruct (f (k, x)) as [[q' v']|] eqn:Hkx; [|done]. simpl.
    apply NoDup_cons. split; [|done].
    intros ([q'' v''] & Heq & Hin)%list_elem_of_fmap. simpl in Heq. subst q''.
    apply list_elem_of_omap in Hin as ([k2 x2] & Hin2 & Hf2).
    apply Hf in Hkx as (s & -> & -> & ->).
    apply Hf in Hf2 as (s2 & -> & ->%app_inv_head & ->).
    apply Hk. apply list_elem_of_fmap. by exists (from ++ s2, x2). }
  split.
  - intros Hq%elem_of_list_to_map_2.
    apply list_elem_of_omap in Hq as ([k x] & Hin & Hkx).
    apply Hf in Hkx as (s & -> & -> & ->). exists s. split; [done|].
    by apply elem_of_map_to_list in Hin.
  - intros (s & -> & Hs). apply elem_of_list_to_map_1; [done|].
    apply list_elem_of_omap. exists (from ++ s, v). split.
    + by apply elem_of_map_to_list.
    + apply Hf. by exists s.
Qed.

(** After a rename the entry at [to/s] is the one that was at [from/s];
    where there was none, and elsewhere, an entry that is not at or below
    [from] stays and every other path is empty. *)
Lemma fc_rename_lookup (from to : path) (fs : filesystem) d :
  fs !! from = Some d ->
  fst (fc_rename from to fs) = Ok tt /\
  (forall s v, fs !! (from ++ s) = Some v ->
     snd (fc_rename from to fs) !! (to ++ s) = Some v) /\
  (forall q, ~ to `prefix_of` q ->
     snd (fc_rename from to fs) !! q =
     if decide (from `prefix_of` q) then None else fs !! q).
Proof.
  intros Hd. unfold fc_rename. rewrite Hd. simpl. split; [done|]. split.
  - intros s v Hs. apply lookup_union_Some_raw. left.
    apply moved_entries_lookup_Some. by exists s.
  - intros q Hq.
    assert (Hm : moved_entries from to fs !! q = None).
    { destruct (moved_entries from to fs !! q) as [v|] eqn:H; [|done].
      apply moved_entries_lookup_Some in H as (s & -> & _).
      destruct Hq. by exists s. }
    rewrite lookup_union_r by done.
    rewrite map_lookup_filter.
    destruct (decide (from `prefix_of` q)) as [Hp|Hp].
    + destruct (fs !! q) as [v|]; [|done]. simpl.
      by rewrite option_guard_False by (simpl; tauto).
    + destruct (fs !! q) as [v|]; [|done]. simpl.
      by rewrite option_guard_True.
Qed.

(** ** Recovery *)

Lemma uint32_add_sub_1 n : is_uint32 n -> uint32_add (uint32_sub n 1) 1 = n.
Proof.
  unfold is_uint32, uint32_add, uint32_sub, uint32_wrap. intros Hn.
  rewrite Zplus_mod_idemp_l. replace (n - 1 + 1) with n by lia.
  apply Z.mod_small. lia.
Qed.

Lemma uint32_add_small n : 0 <= n -> n + 1 < 2 ^ 32 -> uint32_add n 1 = n + 1.
Proof. intros. unfold uint32_add, uint32_wrap. apply Z.mod_small. lia. Qed.

Section RecoveryFacts.
Variable signed_block : Type.
Variable unpack : list Byte.byte -> outcome signed_block.
Variable pack : signed_block -> list Byte.byte.
Variable fits : Z -> list reversible_block_object -> reversible_block_object -> bool.

Local Abbreviation recover := (recover_reversible_blocks signed_block unpack pack fits).
Local Abbreviation copy_loop' := (copy_loop signed_block unpack pack fits).
Local Abbreviation create' := (create_reversible_block_object signed_block unpack pack fits).
Local Abbreviation reencoded := (reencoded unpack pack).

Lemma insert_by_num_perm o rows : insert_by_num o rows ≡ₚ rows ++ [o].
Proof.
  induction rows as [|r rows IH]; simpl; [done|].
  destruct (blocknum o <? blocknum r).
  - by rewrite (Permutation_app_comm (r :: rows) [o]).
  - by rewrite IH.
Qed.

Lemma insert_by_num_last o rows :
  Forall (fun r => blocknum r < blocknum o) rows ->
  insert_by_num o rows = rows ++ [o].
Proof.
  induction 1 as [|r rows Hr _ IH]; simpl; [done|].
  destruct (Z.ltb_spec (blocknum o) (blocknum r)); [lia|]. by rewrite IH.
Qed.

Lemma has_blocknum_false n rows :
  Forall (fun r => blocknum r < n) rows -> has_blocknum n rows = false.
Proof.
  induction 1 as [|r rows Hr _ IH]; simpl; [done|].
  rewrite IH. destruct (Z.eqb_spec (blocknum r) n); [lia|done].
Qed.

(** One call of [create]: either a row equal to the re-encoding of
    [itr] joins the store, or the call raises and the store is as
    before. *)
Lemma create_spec cache itr st :
  match create' cache itr st with
  | (Ok _, st') =>
      exists o, reencoded itr o /\
        new_rows st' = Some (insert_by_num o (default [] (new_rows st))) /\
        num st' = num st /\ start st' = start st /\ end_ st' = end_ st
  | (Throw _, st') => st' = st
  end.
Proof.
  unfold create_reversible_block_object, bind, lift.
  destruct (unpack (packedblock itr)) as [blk|e] eqn:Hu; [|done].
  destruct (fits _ _ _); simpl; [|done].
  destruct (has_blocknum _ _); [done|].
  eexists; split; [|done]. split; [done|]. by exists blk.
Qed.

Lemma copy_loop_cons cache r itr st :
  copy_loop' cache (r :: itr) st =
  if blocknum r =? uint32_add (end_ st) 1 then
    match create' cache r st with
    | (Ok _, st1) => copy_loop' cache itr (count_block st1 (blocknum r))
    | (Throw e, st1) => (Throw e, st1)
    end
  else (Throw (fc_exception assert_exception gap_message), st).
Proof.
  simpl. unfold bind, get, FC_ASSERT, ret, throw, modify.
  destruct (blocknum r =? _); [|done].
  by destruct (create' cache r st) as [[[]|e] st1].
Qed.


Local Abbreviation rebuild' := (rebuild signed_block unpack pack fits).
Local Abbreviation nothrow' := (copy_blocks_nothrow signed_block unpack pack fits).

Lemma rebuild_spec (cache : Z) (backup_dir reversible_dir : path)
    (fs : filesystem) old new :
  database_open fs backup_dir read_only true = Ok old ->
  database_open fs reversible_dir read_write false = Ok new ->
  rebuild' cache backup_dir reversible_dir fs =
  (Ok true,
   <[reversible_dir := DbDir {| db_dirty := false;
                                db_index := new_rows (nothrow' cache old new) |}]> fs).
Proof.
  intros Ho Hn. unfold rebuild, bind, get, lift, database_close, modify, ret.
  by rewrite Ho, Hn.
Qed.

Lemma copy_blocks_some cache old ubi st :
  db_index old = Some ubi ->
  copy_blocks signed_block unpack pack fits cache old st =
  copy_loop' cache ubi (loop_entry_state ubi st).
Proof.
  intros Hi. unfold copy_blocks, bind, lift, add_index_read_only.
  rewrite Hi. by destruct ubi.
Qed.

Lemma copy_blocks_none cache old st :
  db_index old = None ->
  exists e, copy_blocks signed_block unpack pack fits cache old st = (Throw e, st).
Proof.
  intros Hi. unfold copy_blocks, bind, lift, add_index_read_only.
  rewrite Hi. by eexists.
Qed.

Lemma nothrow_some cache old new ubi :
  db_index old = Some ubi ->
  nothrow' cache old new =
  snd (copy_loop' cache ubi (loop_entry_state ubi (initial_copy_state new))).
Proof.
  intros Hi. unfold copy_blocks_nothrow, try_catch.
  rewrite (copy_blocks_some _ _ _ _ Hi).
  by destruct (copy_loop' _ _ _) as [[[]|e] st'].
Qed.


Lemma recover_dirty_unfold (db_dir : path) (cache : Z) (new_db_dir : option path)
    (now : string) (fs : filesystem) e :
  database_open fs db_dir read_only false = Throw e ->
  is_runtime_error e = true ->
  recover db_dir cache new_db_dir now fs =
  (do dirs <- prepare_directories db_dir new_db_dir now;
   rebuild' cache (fst dirs) (snd dirs)) fs.
Proof. intros He Hr. unfold recover_reversible_blocks. by rewrite He, Hr. Qed.

Lemma reencoded_eq r o blk :
  reencoded r o -> unpack (packedblock r) = Ok blk ->
  o = {| blocknum := blocknum r; packedblock := pack blk |}.
Proof.
  intros [Hn (blk' & Hu & Hp)] Hblk. rewrite Hblk in Hu.
  injection Hu as <-. destruct o; simpl in *. by subst.
Qed.

Lemma copy_loop_contiguous cache pre : forall created acc st n tail,
  (forall rows o, fits cache rows o = true) ->
  Forall2 reencoded pre created ->
  contiguous_from n pre ->
  0 <= n -> n + Z.of_nat (length pre) < 2 ^ 32 ->
  new_rows st = Some acc ->
  Forall (fun o => blocknum o < n) acc ->
  uint32_add (end_ st) 1 = n ->
  exists st',
    copy_loop' cache (pre ++ tail) st = copy_loop' cache tail st' /\
    new_rows st' = Some (acc ++ created) /\
    uint32_add (end_ st') 1 = n + Z.of_nat (length pre).
Proof.
  induction pre as [|r pre IH];
    intros created acc st n tail Hfits Hf Hc Hn Hlen Hrows Hacc Hend.
  - apply Forall2_nil_inv_l in Hf as ->. exists st. simpl. rewrite app_nil_r.
    split; [done|]. split; [done|]. lia.
  - apply Forall2_cons_inv_l in Hf as (o & created' & Hro & Hf' & ->).
    destruct Hc as [Hr Hc]. subst n. simpl in Hlen.
    rewrite <- app_comm_cons, copy_loop_cons, Hend, Z.eqb_refl.
    destruct Hro as [Hnum (blk & Hu & Hp)].
    assert (Ho : {| blocknum := blocknum r; packedblock := pack blk |} = o).
    { destruct o; simpl in *; by subst. }
    unfold create_reversible_block_object, bind, lift.
    rewrite Hu, Hfits, Hrows, Ho. simpl.
    rewrite has_blocknum_false by (by rewrite Hnum).
    rewrite insert_by_num_last by (by rewrite Hnum).
    edestruct (IH created' (acc ++ [o]) (count_block
                 {| num := num st; start := start st; end_ := end_ st;
                    new_rows := Some (acc ++ [o]) |} (blocknum r))
                 (blocknum r + 1) tail)
      as (st' & Heq & Hrows' & Hend'); try eassumption.
    + lia.
    + lia.
    + reflexivity.
    + apply Forall_app. split.
      * eapply Forall_impl; [exact Hacc|]. simpl. intros; lia.
      * constructor; [lia|constructor].
    + simpl. apply uint32_add_small; lia.
    + exists st'. split; [exact Heq|].
      split; [by rewrite Hrows', <- app_assoc|]. lia.
Qed.

(** C4. A store that opens read-only is clean: the recovery returns
    false and leaves every directory as it was; an error of the open
    that is not a [std::runtime_error] leaves the function unchanged and
    no recovery is attempted. *)
Theorem recover_clean_is_noop (db_dir : path) (cache : Z) (new_db_dir : option path)
    (now : string) (fs : filesystem) :
  (forall d, database_open fs db_dir read_only false = Ok d ->
     recover_reversible_blocks signed_block unpack pack fits
       db_dir cache new_db_dir now fs = (Ok false, fs)) /\
  (forall e, database_open fs db_dir read_only false = Throw e ->
     is_runtime_error e = false ->
     recover_reversible_blocks signed_block unpack pack fits
       db_dir cache new_db_dir now fs = (Throw e, fs)).
Proof.
  unfold recover_reversible_blocks. split.
  - intros d ->. reflexivity.
  - intros e -> ->. reflexivity.
Qed.

Lemma prepare_backup_taken (db_dir : path) (now : string) (fs : filesystem) :
  is_Some (fs !! db_dir) ->
  is_Some (fs !! backup_path (strip_dot db_dir) now) ->
  prepare_directories db_dir None now fs =
  (Throw (fc_exception assert_exception
            (if String.eqb (filename (strip_dot db_dir)) "."
             then invalid_path_message else backup_exists_message)), fs).
Proof.
  intros [d Hd] Hb.
  unfold prepare_directories, bind at 1, fc_canonical. rewrite Hd.
  unfold bind at 1, bind at 1, FC_ASSERT.
  destruct (String.eqb (filename (strip_dot db_dir)) "."); simpl; [done|].
  unfold bind at 1, bind at 1, fc_exists.
  by rewrite bool_decide_eq_true_2.
Qed.

(** C8. In a run that renames the store in place, a directory that
    already carries the backup name makes the recovery raise an
    assertion failure, and the file system is exactly as before: nothing
    was renamed, created or overwritten. *)
Theorem recover_backup_name_taken (db_dir : path) (cache : Z) (now : string)
    (fs : filesystem) :
  is_Some (fs !! backup_path (strip_dot db_dir) now) ->
  snd (recover_reversible_blocks signed_block unpack pack fits
         db_dir cache None now fs) = fs /\
  (forall e, database_open fs db_dir read_only false = Throw e ->
     is_runtime_error e = true ->
     is_Some (fs !! db_dir) ->
     recover_reversible_blocks signed_block unpack pack fits
       db_dir cache None now fs =
     (Throw (fc_exception assert_exception
               (if String.eqb (filename (strip_dot db_dir)) "."
                then invalid_path_message else backup_exists_message)), fs)).
Proof.
  intros Hb.
  assert (Hdirty : forall e, database_open fs db_dir read_only false = Throw e ->
     is_runtime_error e = true ->
     is_Some (fs !! db_dir) ->
     recover db_dir cache None now fs =
     (Throw (fc_exception assert_exception
               (if String.eqb (filename (strip_dot db_dir)) "."
                then invalid_path_message else backup_exists_message)), fs)).
  { intros e He Hr Hd. rewrite (recover_dirty_unfold _ _ _ _ _ _ He Hr).
    unfold bind. by rewrite prepare_backup_taken. }
  split; [|exact Hdirty].
  destruct (database_open fs db_dir read_only false) as [d|e] eqn:Ho.
  - unfold recover_reversible_blocks. by rewrite Ho.
  - destruct (is_runtime_error e) eqn:Hr.
    + destruct (fs !! db_dir) as [x|] eqn:Hd.
      * rewrite (Hdirty e); eauto.
      * rewrite (recover_dirty_unfold _ _ _ _ _ _ Ho Hr).
        unfold bind, prepare_directories, bind, fc_canonical. by rewrite Hd.
    + unfold recover_reversible_blocks. by rewrite Ho, Hr.
Qed.



(** C1. When the old rows are [pre ++ g :: rest], with
    [pre] numbered consecutively from [b] and the number of [g] beyond
    the next one, the recovery into a fresh store stops at [g] without
    raising: it returns true, and the live store holds exactly the
    re-encoded rows of [pre]. *)
Theorem recover_stops_at_gap (db_dir : path) (cache : Z)
    (new_db_dir : option path) (now : string) (fs fs1 : filesystem) e
    (backup_dir reversible_dir : path) old new
    (r0 : reversible_block_object) pre g rest created b :
  database_open fs db_dir read_only false = Throw e ->
  is_runtime_error e = true ->
  prepare_directories db_dir new_db_dir now fs = (Ok (backup_dir, reversible_dir), fs1) ->
  database_open fs1 backup_dir read_only true = Ok old ->
  database_open fs1 reversible_dir read_write false = Ok new ->
  db_index new = None ->
  db_index old = Some ((r0 :: pre) ++ g :: rest) ->
  contiguous_from b (r0 :: pre) -> 0 <= b ->
  b + Z.of_nat (length (r0 :: pre)) < blocknum g < 2 ^ 32 ->
  Forall2 reencoded (r0 :: pre) created ->
  (forall rows o, fits cache rows o = true) ->
  recover_reversible_blocks signed_block unpack pack fits
    db_dir cache new_db_dir now fs =
  (Ok true,
   <[reversible_dir := DbDir {| db_dirty := false; db_index := Some created |}]> fs1).
Proof.
  intros He Hr Hp Ho Hn Hfresh Hold Hc Hb Hg Hf Hfits.
  rewrite (recover_dirty_unfold _ _ _ _ _ _ He Hr). unfold bind.
  rewrite Hp. simpl. rewrite (rebuild_spec _ _ _ _ _ _ Ho Hn).
  rewrite (nothrow_some _ _ _ _ Hold).
  assert (Hb0 : blocknum r0 = b) by (by destruct Hc).
  edestruct (copy_loop_contiguous cache (r0 :: pre) created []
               (loop_entry_state ((r0 :: pre) ++ g :: rest) (initial_copy_state new))
               b (g :: rest))
    as (st' & Heq & Hrows & Hend); try eassumption.
  - lia.
  - simpl. by rewrite Hfresh.
  - constructor.
  - simpl. rewrite Hb0. apply uint32_add_sub_1. unfold is_uint32. simpl in Hg. lia.
  - rewrite Heq, copy_loop_cons, Hend.
    destruct (Z.eqb_spec (blocknum g) (b + Z.of_nat (length (r0 :: pre)))); [lia|].
    simpl. by rewrite Hrows.
Qed.
End RecoveryFacts.

(** C4, at a clean store and at an unreadable one. *)
Lemma recover_clean_is_noop_witness :
  ex_recover ex_reversible_dir 1024 None ex_now ex_fs_clean = (Ok false, ex_fs_clean) /\
  ex_recover ex_reversible_dir 1024 None ex_now ex_fs_unreadable
  = (Throw (std_exception "interprocess_exception"), ex_fs_unreadable).
Proof.
  split.
  - eapply (proj1 (recover_clean_is_noop _ ex_unpack ex_pack ex_fits
                     ex_reversible_dir 1024 None ex_now ex_fs_clean)).
    by_evaluation.
  - apply (proj2 (recover_clean_is_noop _ ex_unpack ex_pack ex_fits
                    ex_reversible_dir 1024 None ex_now ex_fs_unreadable)).
    + by_evaluation.
    + reflexivity.
Defined.

(** C8, at a dirty store whose backup name is taken. *)
Lemma recover_backup_name_taken_witness :
  snd (ex_recover ex_reversible_dir 1024 None ex_now ex_fs_backup_taken)
  = ex_fs_backup_taken /\
  ex_recover ex_reversible_dir 1024 None ex_now ex_fs_backup_taken
  = (Throw (fc_exception assert_exception backup_exists_message), ex_fs_backup_taken).
Proof.
  assert (Hb : is_Some (ex_fs_backup_taken !! backup_path (strip_dot ex_reversible_dir) ex_now)).
  { vm_compute. eexists. reflexivity. }
  pose proof (recover_backup_name_taken _ ex_unpack ex_pack ex_fits
                ex_reversible_dir 1024 ex_now ex_fs_backup_taken Hb) as [H1 H2].
  split; [exact H1|].
  apply (H2 (std_runtime_error "database dirty flag set")).
  - by_evaluation.
  - reflexivity.
  - vm_compute. eexists. reflexivity.
Defined.



(** C1, counterexample: with rows at heights 5 and 7 the recovery does
    not raise the gap error: it returns true, and the live store is not
    empty, it holds the row of height 5. *)
Lemma recover_gap_is_not_fatal :
  database_open ex_fs_gap ex_reversible_dir read_only false
  = Throw (std_runtime_error "database dirty flag set") /\
  fst (ex_recover ex_reversible_dir 1024 None ex_now ex_fs_gap)
  <> Throw (fc_exception assert_exception gap_message) /\
  fst (ex_recover ex_reversible_dir 1024 None ex_now ex_fs_gap) = Ok true /\
  snd (ex_recover ex_reversible_dir 1024 None ex_now ex_fs_gap) !! ex_reversible_dir
  = Some (ex_clean [ex_row 5]).
Proof.
  vm_compute. split; [reflexivity|]. split; [discriminate|].
  split; reflexivity.
Qed.

(** C1, at the same store. *)
Lemma recover_stops_at_gap_witness :
  ex_recover ex_reversible_dir 1024 None ex_now ex_fs_gap =
  (Ok true, <[ex_reversible_dir := ex_clean [ex_row 5]]> ex_fs_gap_renamed).
Proof.
  eapply (recover_stops_at_gap _ ex_unpack ex_pack ex_fits
            ex_reversible_dir 1024 None ex_now ex_fs_gap ex_fs_gap_renamed
            (std_runtime_error "database dirty flag set")
            ex_backup_dir ex_reversible_dir
            {| db_dirty := true; db_index := Some [ex_row 5; ex_row 7] |}
            fresh_database (ex_row 5) [] (ex_row 7) [] [ex_row 5] 5).
  - by_evaluation.
  - reflexivity.
  - by_evaluation.
  - by_evaluation.
  - by_evaluation.
  - reflexivity.
  - reflexivity.
  - simpl. split; [reflexivity|exact I].
  - lia.
  - simpl. lia.
  - constructor; [|constructor]. split; [reflexivity|].
    exists [Byte.x01]. split; reflexivity.
  - reflexivity.
Defined.

(** Rows at heights 5, 6 and 7 are all copied, and the closing log line
    reports three blocks from 5 to 7. *)
Example recover_three_blocks :
  ex_recover ex_reversible_dir 1024 None ex_now
    (<[ ex_reversible_dir := ex_dirty [ex_row 5; ex_row 6; ex_row 7] ]> ex_fs_data)
  = (Ok true,
     <[ ex_reversible_dir := ex_clean [ex_row 5; ex_row 6; ex_row 7] ]>
       (<[ ex_backup_dir := ex_dirty [ex_row 5; ex_row 6; ex_row 7] ]> ex_fs_data)) /\
  recovery_summary
    (copy_blocks_nothrow (list Byte.byte) ex_unpack ex_pack ex_fits 1024
       {| db_dirty := true; db_index := Some [ex_row 5; ex_row 6; ex_row 7] |}
       fresh_database)
  = RecoveredMany 3 5 7.
Proof. split; by_evaluation. Qed.

(** A store that starts at height 0: [end] wraps to 2^32 - 1 and the
    first row passes the check. *)
Example recover_from_height_zero :
  recovery_summary
    (copy_blocks_nothrow (list Byte.byte) ex_unpack ex_pack ex_fits 1024
       {| db_dirty := true; db_index := Some [ex_row 0; ex_row 1] |}
       fresh_database)
  = RecoveredMany 2 0 1.
Proof. by_evaluation. Qed.

(** A row that does not decode ends the copy like a gap does. *)
Example recover_undecodable_row :
  recovery_summary
    (copy_blocks_nothrow (list Byte.byte) ex_unpack ex_pack ex_fits 1024
       {| db_dirty := true;
          db_index := Some [ex_row 5; {| blocknum := 6; packedblock := [] |}; ex_row 7] |}
       fresh_database)
  = RecoveredOne 5.
Proof. by_evaluation. Qed.

(** With an alternate destination the dirty directory itself is the
    backup and is left in place. *)
Example recover_into_new_directory :
  ex_recover ex_backup_dir 1024 (Some ex_reversible_dir) ex_now
    (<[ ex_backup_dir := ex_dirty [ex_row 5; ex_row 6] ]> ex_fs_data)
  = (Ok true,
     <[ ex_reversible_dir := ex_clean [ex_row 5; ex_row 6] ]>
       (<[ ex_backup_dir := ex_dirty [ex_row 5; ex_row 6] ]> ex_fs_data)).
Proof. by_evaluation. Qed.

(** ** The APIs *)

Section ChainApiFacts.
Variable ledger : Type.
Variable signed_block : Type.
Variable packed_transaction : Type.
Variable transaction_trace : Type.
Variable block_id : signed_block -> block_id_type.
Variable block_num : signed_block -> Z.
Variable trace_id : transaction_trace -> transaction_id_type.
Variable fetch_block_by_id : ledger -> block_id_type -> outcome (option signed_block).
Variable fetch_block_by_number : ledger -> Z -> outcome (option signed_block).
Variable controller_push_block : signed_block -> M ledger unit.
Variable to_variant_with_abi : ledger -> transaction_trace -> outcome variant.
Variable transaction_sync : packed_transaction -> bool -> M ledger transaction_trace.
Variable parse_block_id : string -> outcome block_id_type.
Variable to_uint64 : string -> outcome Z.
Variable block_to_variant : signed_block -> outcome variant.
Variable from_variant : variant -> outcome packed_transaction.
Variable to_detail_string : fc_type -> string -> string.
Variable EVT_RETHROW_EXCEPTIONS : fc_type -> string -> exn -> exn.

Local Abbreviation World := (world ledger signed_block packed_transaction).
Local Abbreviation lookup' :=
  (get_block_lookup ledger signed_block packed_transaction fetch_block_by_id
     fetch_block_by_number parse_block_id to_uint64 EVT_RETHROW_EXCEPTIONS).
Local Abbreviation get_block' :=
  (get_block ledger signed_block packed_transaction block_id block_num
     fetch_block_by_id fetch_block_by_number parse_block_id to_uint64
     block_to_variant EVT_RETHROW_EXCEPTIONS).
Local Abbreviation push_block' :=
  (push_block ledger signed_block packed_transaction controller_push_block).
Local Abbreviation push_transaction' :=
  (push_transaction ledger signed_block packed_transaction transaction_trace
     trace_id to_variant_with_abi transaction_sync from_variant
     EVT_RETHROW_EXCEPTIONS).
Local Abbreviation push_transactions' :=
  (push_transactions ledger signed_block packed_transaction transaction_trace
     trace_id to_variant_with_abi transaction_sync from_variant
     to_detail_string EVT_RETHROW_EXCEPTIONS).
Local Abbreviation push_transactions_result' :=
  (push_transactions_result ledger signed_block packed_transaction transaction_trace
     trace_id to_variant_with_abi transaction_sync from_variant
     to_detail_string EVT_RETHROW_EXCEPTIONS).
Local Abbreviation push_transactions_loop' :=
  (push_transactions_loop ledger signed_block packed_transaction transaction_trace
     trace_id to_variant_with_abi transaction_sync from_variant
     to_detail_string EVT_RETHROW_EXCEPTIONS).
Local Abbreviation invalid_id_error :=
  (EVT_RETHROW_EXCEPTIONS block_id_type_exception invalid_block_id_message).
Local Abbreviation accept_transaction' :=
  (accept_transaction ledger signed_block packed_transaction transaction_trace
     transaction_sync).

(** *** [get_block]: the five ways through lines 470-478 *)

Lemma lookup_unparsable s (w : World) e :
  parse_block_id s = Throw e ->
  lookup' s w = (Throw (invalid_id_error e), w).
Proof.
  intros Hp. unfold get_block_lookup, try_catch, bind, lift.
  by rewrite Hp.
Qed.

Lemma lookup_by_id_first s (w : World) id b :
  parse_block_id s = Ok id ->
  fetch_block_by_id (w_ledger w) id = Ok (Some b) ->
  lookup' s w = (Ok (Some b), w).
Proof.
  intros Hp Hf. unfold get_block_lookup, try_catch, bind, lift, read_ledger.
  by rewrite Hp, Hf.
Qed.

Lemma lookup_falls_back_to_number s (w : World) id n :
  parse_block_id s = Ok id ->
  fetch_block_by_id (w_ledger w) id = Ok None ->
  to_uint64 s = Ok n ->
  lookup' s w =
  match fetch_block_by_number (w_ledger w) (uint32_wrap n) with
  | Ok found => (Ok found, w)
  | Throw e => (Throw (invalid_id_error e), w)
  end.
Proof.
  intros Hp Hf Hn. unfold get_block_lookup, try_catch, bind, lift, read_ledger.
  rewrite Hp, Hf, Hn. by destruct (fetch_block_by_number _ _).
Qed.

Lemma lookup_number_unparsable s (w : World) id e :
  parse_block_id s = Ok id ->
  fetch_block_by_id (w_ledger w) id = Ok None ->
  to_uint64 s = Throw e ->
  lookup' s w = (Throw (invalid_id_error e), w).
Proof.
  intros Hp Hf Hn. unfold get_block_lookup, try_catch, bind, lift, read_ledger.
  by rewrite Hp, Hf, Hn.
Qed.

Lemma get_block_not_found s (w : World) :
  lookup' s w = (Ok None, w) ->
  get_block' s w =
  (Throw (fc_exception unknown_block_exception could_not_find_block_message), w).
Proof. intros Hl. unfold get_block, bind. by rewrite Hl. Qed.

(** An identifier that converts to a block id of no block and is not a
    decimal number is reported with the handler's "Invalid block ID"
    error; the "Could not find block" assertion is not reached. *)
Lemma get_block_unknown_id_invalid s (w : World) id e :
  parse_block_id s = Ok id ->
  fetch_block_by_id (w_ledger w) id = Ok None ->
  to_uint64 s = Throw e ->
  get_block' s w = (Throw (invalid_id_error e), w).
Proof.
  intros Hp Hf Hn. unfold get_block, bind.
  by rewrite (lookup_number_unparsable _ _ _ _ Hp Hf Hn).
Qed.

(** *** [push_block] *)

(** What the [try] statement of [push_block] makes of an exception of
    [db.push_block]: the memory-exhaustion exception of the shared-memory
    segment is answered by one [raise(SIGUSR1)] and goes no further;
    every other exception, [std::bad_alloc] included, leaves the
    statement unchanged and no signal is raised. *)
Lemma push_block_try_throw params (w : World) e l' :
  controller_push_block params (w_ledger w) = (Throw e, l') ->
  push_block_try ledger signed_block packed_transaction controller_push_block params w =
  if is_bad_alloc e
  then (Ok tt, {| w_ledger := l'; w_events := w_events w ++ [raised SIGUSR1] |})
  else (Throw e, {| w_ledger := l'; w_events := w_events w |}).
Proof.
  intros Hp. unfold push_block_try, try_catch, on_ledger. rewrite Hp.
  by destruct (is_bad_alloc e).
Qed.

(** [push_block] never hands a value back: every call ends in an
    exception or in no defined behaviour. *)
Lemma push_block_never_returns params (w : World) r w' :
  push_block' params w <> Defined (Ok r) w'.
Proof. unfold push_block. by destruct (push_block_try _ _ _ _ _ _) as [[[]|e] w1]. Qed.

(** Whenever the memory-exhaustion exception is raised by
    [db.push_block], the call has no defined behaviour; so it has when
    [db.push_block] returns. *)
Lemma push_block_bad_alloc params (w : World) l' :
  controller_push_block params (w_ledger w) = (Throw interprocess_bad_alloc, l') ->
  push_block' params w = Undefined.
Proof. intros Hp. unfold push_block. by rewrite (push_block_try_throw _ _ _ _ Hp). Qed.

Lemma push_block_ok params (w : World) l' :
  controller_push_block params (w_ledger w) = (Ok tt, l') ->
  push_block' params w = Undefined.
Proof.
  intros Hp. unfold push_block, push_block_try, try_catch, on_ledger. by rewrite Hp.
Qed.

Lemma push_block_other_exception params (w : World) e l' :
  controller_push_block params (w_ledger w) = (Throw e, l') ->
  e <> interprocess_bad_alloc ->
  push_block' params w =
  Defined (Throw e) {| w_ledger := l'; w_events := w_events w |}.
Proof.
  intros Hp Hne. unfold push_block. rewrite (push_block_try_throw _ _ _ _ Hp).
  destruct e; try reflexivity. by destruct Hne.
Qed.

(** *** [accept_transaction] and [push_transaction] *)

(** C9. [accept_transaction] calls the transaction-sync
    method with the flag false and hands back what the method hands
    back. [push_transaction], once its argument decodes, calls the same
    method with the flag true and returns the identifier of the trace
    with the rendering of the trace. *)
Theorem transaction_sync_flags :
  (forall trx (w : World),
     accept_transaction ledger signed_block packed_transaction transaction_trace
       transaction_sync trx w =
     (fst (transaction_sync trx false (w_ledger w)),
      after_transaction_sync w trx false
        (snd (transaction_sync trx false (w_ledger w))))) /\
  (forall params (w : World) trx trace l' out,
     from_variant params = Ok trx ->
     transaction_sync trx true (w_ledger w) = (Ok trace, l') ->
     to_variant_with_abi l' trace = Ok out ->
     push_transaction ledger signed_block packed_transaction transaction_trace
       trace_id to_variant_with_abi transaction_sync from_variant
       EVT_RETHROW_EXCEPTIONS params w =
     (Ok (trace_id trace, out), after_transaction_sync w trx true l')).
Proof.
  split.
  - intros trx w.
    unfold accept_transaction, incoming_transaction_sync_method, bind, emit,
      modify, on_ledger. simpl.
    by destruct (transaction_sync trx false (w_ledger w)) as [r l].
  - intros params w trx trace l' out Hf Ht Ho.
    unfold push_transaction, try_catch, bind, lift,
      incoming_transaction_sync_method, bind, emit, modify, on_ledger,
      read_ledger. simpl.
    rewrite Hf, Ht. simpl. by rewrite Ho.
Qed.


(** *** [push_transactions] *)

Lemma push_transactions_too_many params (w : World) :
  (1000 < length params)%nat ->
  push_transactions' params w =
  (Raised (fc_exception assert_exception too_many_transactions_message), w).
Proof.
  intros Hlen. unfold push_transactions, push_transactions_result, bind, FC_ASSERT.
  destruct (Nat.leb_spec (length params) 1000); [lia|]. reflexivity.
Qed.

(** One item of the batch: a result or an [fc::exception] adds one entry
    and the loop goes on; anything else ends the loop. *)
Lemma push_transactions_loop_cons item rest result (w : World) :
  push_transactions_loop' (item :: rest) result w =
  match push_transaction' item w with
  | (Ok r, w1) => push_transactions_loop' rest (result ++ [r]) w1
  | (Throw (fc_exception ty msg), w1) =>
      push_transactions_loop' rest
        (result ++ [error_result to_detail_string ty msg]) w1
  | (Throw e, w1) => (Throw e, w1)
  end.
Proof.
  simpl. unfold bind at 1, try_catch at 1.
  destruct (push_transaction' item w) as [[r|e] w1]; [done|].
  by destruct e.
Qed.

(** No path through [push_transactions] hands a vector back. *)
Lemma push_transactions_never_returns params (w : World) result :
  fst (push_transactions' params w) <> Returned result.
Proof.
  unfold push_transactions.
  destruct (push_transactions_result' params w) as [[r|e] w']; [done|].
  by destruct (is_bad_alloc e).
Qed.

(** The vector built by the loop has one entry per item processed, in
    order, when the loop runs to its end. *)
Lemma push_transactions_loop_length params : forall result (w w' : World) out,
  push_transactions_loop' params result w = (Ok out, w') ->
  length out = (length result + length params)%nat.
Proof.
  induction params as [|item rest IH]; intros result w w' out; simpl.
  - unfold ret. intros [= <- _]. lia.
  - unfold bind at 1.
    destruct (try_catch _ _ w) as [[r|e] w1]; [|done].
    intros H. apply IH in H. rewrite H, length_app. simpl. lia.
Qed.
End ChainApiFacts.

(** C2. A block pushed to a ledger whose shared memory is used up:
    [db.push_block] raises the memory-exhaustion exception, the handler
    raises [SIGUSR1] once and the [try] statement completes; control
    then reaches the closing brace of [push_block], a function that
    returns a value and has no [return] statement, so the call has no
    defined behaviour and nothing bounds the number of signals. An
    out-of-memory condition of another class ([std::bad_alloc]) is
    rethrown to the caller like any failure, and no signal is raised. *)
Theorem push_block_exhaustion_undefined :
  ex_controller_push_block ((3, 0, 0, 3), 3) (w_ledger ex_world_full)
  = (Throw interprocess_bad_alloc, w_ledger ex_world_full) /\
  ex_push_block_try ((3, 0, 0, 3), 3) ex_world_full
  = (Ok tt, {| w_ledger := w_ledger ex_world_full;
               w_events := [raised SIGUSR1] |}) /\
  ex_push_block ((3, 0, 0, 3), 3) ex_world_full = Undefined /\
  push_block ex_ledger ex_block string
    (fun _ db => (Throw (std_exception "std::bad_alloc"), db))
    ((3, 0, 0, 3), 3) ex_world_full
  = Defined (Throw (std_exception "std::bad_alloc")) ex_world_full.
Proof. vm_compute. repeat split; reflexivity. Qed.

(** C9, counterexample: [push_transaction] calls the transaction-sync
    method with the flag set. *)
Lemma push_transaction_sets_flag :
  w_events (snd (ex_push_transaction (v_string "tx1") ex_world_1))
  = [called_transaction_sync "tx1"%string true] /\
  w_events (snd (ex_push_transaction (v_string "tx1") ex_world_1))
  <> [called_transaction_sync "tx1"%string false].
Proof. vm_compute. split; [reflexivity|discriminate]. Qed.

(** C9, at one well-formed transaction. *)
Lemma transaction_sync_flags_witness :
  ex_push_transaction (v_string "tx1") ex_world_1 =
  (Ok ((0, 0, 0, 3), v_object [("trx"%string, v_string "tx1")]),
   {| w_ledger := [ex_block_1];
      w_events := [called_transaction_sync "tx1"%string true] |}).
Proof.
  apply (proj2 (transaction_sync_flags ex_ledger ex_block string ex_trace fst
                  ex_to_variant_with_abi ex_transaction_sync ex_from_variant ex_rethrow)
           (v_string "tx1") ex_world_1 "tx1"%string
           ((0, 0, 0, 3), "tx1"%string) [ex_block_1]).
  - reflexivity.
  - reflexivity.
  - reflexivity.
Defined.

(** C3. A batch of three items whose second item is malformed: the loop
    builds three results in order, the second being the error record with
    the null identifier, but [push_transactions] ends without returning
    the vector. *)
Theorem push_transactions_drops_result :
  fst (ex_push_transactions_result ex_batch ex_world_1) =
  Ok [((0, 0, 0, 3), v_object [("trx"%string, v_string "tx1")]);
      (null_id, v_object [("error"%string, v_string "Invalid packed transaction")]);
      ((0, 0, 0, 3), v_object [("trx"%string, v_string "tx3")])] /\
  fst (ex_push_transactions ex_batch ex_world_1) = FellOffEnd.
Proof. vm_compute. split; reflexivity. Qed.

(** C7. A well-formed identifier of sixty-four hexadecimal digits that
    belongs to no block is reported as "Invalid block ID", not as
    "Could not find block". *)
Theorem get_block_unknown_id_reported_invalid :
  ex_parse_block_id ex_unknown_id
  = Ok (0x00000005a1b2c3d4, 0xe5f60718293a4b5c, 0x6d7e8f901a2b3c4d, 0x5e6f708192a3b4c5) /\
  ex_fetch_block_by_id (w_ledger ex_world_1)
    (0x00000005a1b2c3d4, 0xe5f60718293a4b5c, 0x6d7e8f901a2b3c4d, 0x5e6f708192a3b4c5)
  = Ok None /\
  ex_get_block ex_unknown_id ex_world_1 =
  (Throw (fc_exception block_id_type_exception invalid_block_id_message), ex_world_1) /\
  fst (ex_get_block ex_unknown_id ex_world_1)
  <> Throw (fc_exception unknown_block_exception could_not_find_block_message).
Proof. vm_compute. repeat split; try reflexivity. discriminate. Qed.

(** A decimal string that names no block id falls back to the height;
    an unknown height is reported as not found, a string that is neither
    as an invalid id. *)
Example get_block_by_height :
  fst (ex_get_block "1" ex_world_1)
  = Ok (v_object [("producer"%string, v_string "evt");
                  ("id"%string, v_hash (1, 0, 0, 1));
                  ("block_num"%string, v_uint 1);
                  ("ref_block_prefix"%string, v_uint 0)]) /\
  fst (ex_get_block "2" ex_world_1)
  = Throw (fc_exception unknown_block_exception could_not_find_block_message) /\
  fst (ex_get_block "xyz" ex_world_1)
  = Throw (fc_exception block_id_type_exception invalid_block_id_message).
Proof. vm_compute. repeat split; reflexivity. Qed.

(** A batch of 1001 items is rejected and nothing is processed. *)
Example push_transactions_1001 :
  ex_push_transactions (replicate 1001 (v_string "tx")) ex_world_1
  = (Raised (fc_exception assert_exception too_many_transactions_message), ex_world_1).
Proof. apply push_transactions_too_many. rewrite length_replicate. lia. Qed.

(** ** The life cycle *)

Section PluginFacts.
Variable variables_map : Type.
Variable controller_config : Type.
Variable controller : Type.
Variable block_interval_ms : Z.
Variable from_iso_string : string -> outcome Z.
Variable genesis_timestamp_option : variables_map -> option string.
Variable complete_config : variables_map -> Z -> controller_config -> outcome controller_config.
Variable make_controller : controller_config -> outcome controller.
Variable controller_startup : controller -> outcome controller.
Variable default_config : controller_config.

Local Abbreviation Node := (node controller_config controller).
Local Abbreviation initialize' :=
  (plugin_initialize variables_map controller_config controller block_interval_ms
     from_iso_string genesis_timestamp_option complete_config make_controller).
Local Abbreviation startup' :=
  (plugin_startup controller_config controller controller_startup).
Local Abbreviation reachable' :=
  (reachable variables_map controller_config controller block_interval_ms
     from_iso_string genesis_timestamp_option complete_config make_controller
     controller_startup default_config).

Lemma plugin_initialize_wires options now_us impl impl' p :
  initialize' options now_us impl = Ok impl' ->
  wired {| phase := p; my := impl' |}.
Proof.
  unfold plugin_initialize. intros H.
  repeat match type of H with
         | bind_outcome ?o _ = _ =>
             destruct o; simpl in H; [|discriminate H]
         end.
  injection H as <-. split; simpl; [by eexists|].
  unfold connections; simpl. repeat constructor; by eexists.
Qed.

Lemma plugin_startup_keeps_wiring impl impl' p q :
  startup' impl = Ok impl' ->
  wired {| phase := p; my := impl |} ->
  wired {| phase := q; my := impl' |}.
Proof.
  unfold plugin_startup. intros H [_ Hc].
  repeat match type of H with
         | bind_outcome ?o _ = _ =>
             destruct o; simpl in H; [|discriminate H]
         end.
  injection H as <-. split; simpl; [by eexists|exact Hc].
Qed.

Lemma plugin_shutdown_unwires impl p :
  unwired {| phase := p; my := plugin_shutdown controller_config controller impl |}.
Proof. split; simpl; [done|]. unfold connections; simpl. by repeat constructor. Qed.

Lemma reachable_invariant (n : Node) : reachable' n -> lifecycle_invariant n.
Proof.
  induction 1 as [|n n' _ IH Hstep].
  - split; simpl; [done|]. unfold connections; simpl. by repeat constructor.
  - destruct Hstep; unfold lifecycle_invariant in *; simpl in *.
    + by eapply plugin_initialize_wires.
    + exact IH.
    + by eapply plugin_startup_keeps_wiring.
    + apply plugin_shutdown_unwires.
    + exact IH.
    + exact IH.
Qed.

Lemma wired_not_unwired (n : Node) : wired n -> unwired n -> False.
Proof. intros [[c Hc] _] [Hn _]. congruence. Qed.

(** C6. In every reachable state the controller exists
    exactly in the phases Configured, Starting and Started, and the six
    connections exist exactly when the controller exists (all of them,
    or equivalently any of them). *)
Theorem lifecycle_core_and_tokens (n : Node) :
  reachable variables_map controller_config controller block_interval_ms
    from_iso_string genesis_timestamp_option complete_config make_controller
    controller_startup default_config n ->
  (ledger_core_exists n <-> holds_core (phase n)) /\
  (tokens_exist n <-> ledger_core_exists n) /\
  (some_token_exists n <-> ledger_core_exists n).
Proof.
  intros Hr. apply reachable_invariant in Hr.
  unfold lifecycle_invariant, holds_core, ledger_core_exists, tokens_exist,
    some_token_exists in *.
  assert (Hnone : unwired n -> ~ is_Some (chain (my n)) /\
            ~ Forall (fun c : option scoped_connection => is_Some c) (connections (my n)) /\
            ~ Exists (fun c : option scoped_connection => is_Some c) (connections (my n))).
  { intros [Hc Hf]. split; [rewrite Hc; by intros [? ?]|].
    split.
    - intros Hall. unfold connections in *.
      apply Forall_cons in Hall as [[? Hx] _]. apply Forall_cons in Hf as [Hy _].
      congruence.
    - intros Hex. apply Exists_exists in Hex as (c & Hin & [x ->]).
      rewrite Forall_forall in Hf. by specialize (Hf _ Hin). }
  assert (Hall : wired n -> is_Some (chain (my n)) /\
            Forall (fun c : option scoped_connection => is_Some c) (connections (my n)) /\
            Exists (fun c : option scoped_connection => is_Some c) (connections (my n))).
  { intros [Hc Hf]. split; [done|]. split; [done|].
    unfold connections in *. apply Forall_cons in Hf as [Hx _]. by left. }
  destruct (phase n).
  - destruct (Hnone Hr) as (H1 & H2 & H3).
    split; [split; [tauto|intros [H|[H|H]]; discriminate H]|tauto].
  - destruct (Hall Hr) as (H1 & H2 & H3). split; [|tauto].
    split; [by left|done].
  - destruct (Hall Hr) as (H1 & H2 & H3). split; [|tauto].
    split; [by right; left|done].
  - destruct (Hall Hr) as (H1 & H2 & H3). split; [|tauto].
    split; [by right; right|done].
  - destruct (Hnone Hr) as (H1 & H2 & H3).
    split; [split; [tauto|intros [H|[H|H]]; discriminate H]|tauto].
Qed.
End PluginFacts.

Lemma ex_configured_reachable : ex_reachable ex_configured_node.
Proof.
  eapply reachable_step; [apply reachable_initial|].
  apply (step_configure _ _ _ _ _ _ _ _ _ tt 0). reflexivity.
Qed.

(** C6, counterexample: after configure the controller exists although
    the phase is neither Started nor Starting. *)
Lemma core_exists_when_configured :
  ex_reachable ex_configured_node /\
  ledger_core_exists ex_configured_node /\
  ~ (phase ex_configured_node = Started \/ phase ex_configured_node = Starting).
Proof.
  split; [exact ex_configured_reachable|]. split.
  - by exists 1.
  - intros [H|H]; discriminate H.
Qed.

(** C6, at the node after configure. *)
Lemma lifecycle_core_and_tokens_witness :
  (ledger_core_exists ex_configured_node <-> holds_core (phase ex_configured_node)) /\
  (tokens_exist ex_configured_node <-> ledger_core_exists ex_configured_node) /\
  (some_token_exists ex_configured_node <-> ledger_core_exists ex_configured_node).
Proof.
  apply (lifecycle_core_and_tokens unit Z Z 500 (fun _ => Ok 0) (fun _ => None)
           (fun _ _ cfg => Ok cfg) (fun _ => Ok 1) (fun c => Ok c) 1024).
  eapply reachable_step; [apply reachable_initial|].
  apply (step_configure _ _ _ _ _ _ _ _ _ tt 0). reflexivity.
Defined.

(** * More properties *)

(** ** The version string of [get_info] *)

Lemma hex_digit_digit_at d :
  0 <= d < 16 -> hex_digit (digit_at d) = Some d.
Proof.
  intros Hd.
  assert (H : d = 0 \/ d = 1 \/ d = 2 \/ d = 3 \/ d = 4 \/ d = 5 \/ d = 6 \/ d = 7 \/
              d = 8 \/ d = 9 \/ d = 10 \/ d = 11 \/ d = 12 \/ d = 13 \/ d = 14 \/ d = 15)
    by lia.
  repeat (destruct H as [->|H]; [reflexivity|]). by subst.
Qed.

Lemma itoh_loop_length n i j : String.length (itoh_loop n i j) = i.
Proof. revert j. induction i as [|i IH]; intros j; simpl; [done|]. by rewrite IH. Qed.

Lemma hex_value_itoh_loop n : 0 <= n -> forall k acc,
  hex_value (itoh_loop n k ((Z.of_nat k - 1) * 4)) acc
  = Some (acc * 16 ^ Z.of_nat k + n mod 16 ^ Z.of_nat k).
Proof.
  intros Hn. induction k as [|k IH]; intros acc.
  - simpl. rewrite Z.mod_1_r. f_equal. lia.
  - cbn [itoh_loop hex_value].
    replace ((Z.of_nat (S k) - 1) * 4) with (4 * Z.of_nat k) by lia.
    rewrite Z.shiftr_div_pow2 by lia.
    change 15 with (Z.ones 4). rewrite Z.land_ones by lia.
    rewrite hex_digit_digit_at by (apply Z.mod_pos_bound; lia).
    replace (4 * Z.of_nat k - 4) with ((Z.of_nat k - 1) * 4) by lia.
    rewrite IH. f_equal.
    replace (2 ^ (4 * Z.of_nat k)) with (16 ^ Z.of_nat k)
      by (rewrite Z.pow_mul_r by lia; reflexivity).
    replace (Z.of_nat (S k)) with (Z.of_nat k + 1) by lia.
    rewrite Z.pow_add_r by lia. change (16 ^ 1) with 16. change (2 ^ 4) with 16.
    assert (Hp : 0 < 16 ^ Z.of_nat k) by (apply Z.pow_pos_nonneg; lia).
    rewrite (Z.rem_mul_r n (16 ^ Z.of_nat k) 16) by lia.
    ring.
Qed.

(** X1. The version string of [get_info] always has eight characters,
    all of them lowercase hexadecimal digits, and read as a hexadecimal
    number it is the application version reduced to 32 bits. *)
Theorem get_info_server_version_roundtrip app_version :
  String.length (get_info_server_version app_version) = 8%nat /\
  hex_value (get_info_server_version app_version) 0 = Some (app_version mod 2 ^ 32).
Proof.
  unfold get_info_server_version, itoh. split; [apply itoh_loop_length|].
  rewrite hex_value_itoh_loop by (apply Z.mod_pos_bound; lia).
  unfold uint32_wrap. f_equal.
  change (16 ^ Z.of_nat 8) with (2 ^ 32).
  rewrite Z.mod_mod by lia. lia.
Qed.

(** ** Sizes *)

(** X2. The cache size that the recovery receives depends only on the
    configured number of megabytes modulo 4096: it is that remainder
    times 2^20, so a configured size of 4096 MB or any multiple of it
    arrives as 0. *)
Theorem recovery_cache_size_wraps mb :
  recovery_cache_size (size_from_mb mb) = (mb mod 4096) * 2 ^ 20.
Proof.
  unfold recovery_cache_size, size_from_mb, uint64_wrap, uint32_wrap.
  rewrite Z.mul_mod_idemp_l by lia.
  rewrite Z.mod_mod_divide by (exists (2 ^ 32); reflexivity).
  replace (mb * 1024 * 1024) with (mb * 2 ^ 20) by lia.
  change (2 ^ 32) with (4096 * 2 ^ 20).
  rewrite Z.mul_mod_distr_r by lia. reflexivity.
Qed.

(** ** Checkpoints *)

Section CheckpointFacts.
Variable parse_checkpoint : string -> outcome (Z * block_id_type).

Lemma load_checkpoints_cons cp cps (m : gmap Z block_id_type) :
  load_checkpoints parse_checkpoint (cp :: cps) m =
  match parse_checkpoint cp with
  | Ok item => load_checkpoints parse_checkpoint cps (<[fst item := snd item]> m)
  | Throw e => (Throw e, m)
  end.
Proof. simpl. unfold bind, lift, modify. by destruct (parse_checkpoint cp). Qed.

(** Entries that parse are assigned one after the other. *)
Lemma load_checkpoints_parsed cps items cps2 (m : gmap Z block_id_type) :
  Forall2 (fun cp item => parse_checkpoint cp = Ok item) cps items ->
  load_checkpoints parse_checkpoint (cps ++ cps2) m
  = load_checkpoints parse_checkpoint cps2 (assign_checkpoints items m).
Proof.
  intros Hp. revert m. induction Hp as [|cp item cps items Hcp _ IH]; intros m.
  - reflexivity.
  - rewrite <- app_comm_cons, load_checkpoints_cons, Hcp. apply IH.
Qed.

Lemma assign_checkpoints_other items (m : gmap Z block_id_type) h :
  Forall (fun item : Z * block_id_type => fst item <> h) items ->
  assign_checkpoints items m !! h = m !! h.
Proof.
  intros Hne. revert m. induction Hne as [|item items Hh _ IH]; intros m.
  - reflexivity.
  - unfold assign_checkpoints in *. simpl. rewrite IH. by rewrite lookup_insert_ne.
Qed.

(** X3. When every configured checkpoint parses, loading succeeds and
    the identifier in force for a height is the one of the last pair that
    names this height: earlier pairs for the same height are overridden,
    and heights that no pair names keep what was loaded before. *)
Theorem load_checkpoints_last_wins cps1 cp cps2 items1 items2 h id
    (m : gmap Z block_id_type) :
  Forall2 (fun cp item => parse_checkpoint cp = Ok item) cps1 items1 ->
  parse_checkpoint cp = Ok (h, id) ->
  Forall2 (fun cp item => parse_checkpoint cp = Ok item) cps2 items2 ->
  Forall (fun item : Z * block_id_type => fst item <> h) items2 ->
  exists m',
    load_checkpoints parse_checkpoint (cps1 ++ cp :: cps2) m = (Ok tt, m') /\
    m' !! h = Some id /\
    (forall h', Forall (fun item : Z * block_id_type => fst item <> h')
                  (items1 ++ (h, id) :: items2) ->
       m' !! h' = m !! h').
Proof.
  intros H1 Hcp H2 Hne.
  exists (assign_checkpoints items2 (<[h := id]> (assign_checkpoints items1 m))).
  split; [|split].
  - rewrite (load_checkpoints_parsed _ _ _ _ H1), load_checkpoints_cons, Hcp.
    simpl fst. simpl snd.
    rewrite <- (app_nil_r cps2), (load_checkpoints_parsed _ _ _ _ H2). reflexivity.
  - rewrite (assign_checkpoints_other _ _ _ Hne). apply lookup_insert_eq.
  - intros h' Hall. apply Forall_app in Hall as [Ha Hb].
    apply Forall_cons in Hb as [Hh Hb]. simpl in Hh.
    rewrite (assign_checkpoints_other _ _ _ Hb).
    rewrite lookup_insert_ne by done.
    apply (assign_checkpoints_other _ _ _ Ha).
Qed.

(** X4. The first checkpoint that does not parse makes loading raise
    the parser's exception, whatever follows the bad entry; the pairs
    read before it have been assigned by then, and they stay in
    [loaded_checkpoints]. *)
Theorem load_checkpoints_malformed cps1 cp cps2 items1 e
    (m : gmap Z block_id_type) :
  Forall2 (fun cp item => parse_checkpoint cp = Ok item) cps1 items1 ->
  parse_checkpoint cp = Throw e ->
  load_checkpoints parse_checkpoint (cps1 ++ cp :: cps2) m
  = (Throw e, assign_checkpoints items1 m).
Proof.
  intros H1 Hcp.
  by rewrite (load_checkpoints_parsed _ _ _ _ H1), load_checkpoints_cons, Hcp.
Qed.
End CheckpointFacts.

Lemma load_checkpoints_last_wins_witness :
  exists m',
    load_checkpoints ex_parse_checkpoint ["5,1"; "7,2"; "5,3"; "9,4"]%string ∅
    = (Ok tt, m') /\
    m' !! 5 = Some (0, 0, 0, 3) /\
    (forall h', Forall (fun item : Z * block_id_type => fst item <> h')
                  ([(5, (0, 0, 0, 1)); (7, (0, 0, 0, 2))]
                     ++ (5, (0, 0, 0, 3)) :: [(9, (0, 0, 0, 4))]) ->
       m' !! h' = (∅ : gmap Z block_id_type) !! h').
Proof.
  apply (load_checkpoints_last_wins ex_parse_checkpoint
           ["5,1"; "7,2"]%string "5,3"%string ["9,4"]%string
           [(5, (0, 0, 0, 1)); (7, (0, 0, 0, 2))] [(9, (0, 0, 0, 4))]).
  - repeat constructor.
  - reflexivity.
  - repeat constructor.
  - repeat constructor. simpl. lia.
Defined.

(** Two pairs are read before the entry that does not parse: both are
    in the member when the exception leaves the loop, the pair after the
    bad entry is not. *)
Lemma load_checkpoints_malformed_witness :
  load_checkpoints ex_parse_checkpoint
    (["5,1"%string; "7,2"%string] ++ "seven"%string :: ["9,4"%string]) ∅
  = (Throw (fc_exception parse_error_exception "Unexpected char"),
     assign_checkpoints [(5, (0, 0, 0, 1)); (7, (0, 0, 0, 2))] ∅).
Proof.
  apply (load_checkpoints_malformed ex_parse_checkpoint ["5,1"; "7,2"]%string
           "seven"%string ["9,4"]%string [(5, (0, 0, 0, 1)); (7, (0, 0, 0, 2))]).
  - repeat constructor.
  - reflexivity.
Defined.

(** ** More on the APIs *)

Lemma get_field_set_field_eq key v fields :
  get_field key (set_field key v fields) = Some v.
Proof.
  induction fields as [|[k x] rest IH]; simpl.
  - by rewrite String.eqb_refl.
  - destruct (String.eqb k key) eqn:Hk; simpl; by rewrite Hk.
Qed.

Lemma get_field_set_field_ne key key' v fields :
  key <> key' ->
  get_field key' (set_field key v fields) = get_field key' fields.
Proof.
  intros Hne. induction fields as [|[k x] rest IH]; simpl.
  - destruct (String.eqb_spec key key'); [done|reflexivity].
  - destruct (String.eqb_spec k key) as [->|Hk]; simpl.
    + destruct (String.eqb_spec key key'); [done|reflexivity].
    + by rewrite IH.
Qed.

Section ChainApiMore.
Variable ledger : Type.
Variable signed_block : Type.
Variable packed_transaction : Type.
Variable transaction_trace : Type.
Variable block_id : signed_block -> block_id_type.
Variable block_num : signed_block -> Z.
Variable trace_id : transaction_trace -> transaction_id_type.
Variable fetch_block_by_id : ledger -> block_id_type -> outcome (option signed_block).
Variable fetch_block_by_number : ledger -> Z -> outcome (option signed_block).
Variable to_variant_with_abi : ledger -> transaction_trace -> outcome variant.
Variable transaction_sync : packed_transaction -> bool -> M ledger transaction_trace.
Variable parse_block_id : string -> outcome block_id_type.
Variable to_uint64 : string -> outcome Z.
Variable block_to_variant : signed_block -> outcome variant.
Variable from_variant : variant -> outcome packed_transaction.
Variable to_detail_string : fc_type -> string -> string.
Variable EVT_RETHROW_EXCEPTIONS : fc_type -> string -> exn -> exn.

Local Abbreviation World := (world ledger signed_block packed_transaction).
Local Abbreviation lookup' :=
  (get_block_lookup ledger signed_block packed_transaction fetch_block_by_id
     fetch_block_by_number parse_block_id to_uint64 EVT_RETHROW_EXCEPTIONS).
Local Abbreviation get_block' :=
  (get_block ledger signed_block packed_transaction block_id block_num
     fetch_block_by_id fetch_block_by_number parse_block_id to_uint64
     block_to_variant EVT_RETHROW_EXCEPTIONS).
Local Abbreviation push_transaction' :=
  (push_transaction ledger signed_block packed_transaction transaction_trace
     trace_id to_variant_with_abi transaction_sync from_variant
     EVT_RETHROW_EXCEPTIONS).
Local Abbreviation push_transactions' :=
  (push_transactions ledger signed_block packed_transaction transaction_trace
     trace_id to_variant_with_abi transaction_sync from_variant
     to_detail_string EVT_RETHROW_EXCEPTIONS).
Local Abbreviation push_transactions_result' :=
  (push_transactions_result ledger signed_block packed_transaction transaction_trace
     trace_id to_variant_with_abi transaction_sync from_variant
     to_detail_string EVT_RETHROW_EXCEPTIONS).
Local Abbreviation push_transactions_loop' :=
  (push_transactions_loop ledger signed_block packed_transaction transaction_trace
     trace_id to_variant_with_abi transaction_sync from_variant
     to_detail_string EVT_RETHROW_EXCEPTIONS).
Local Abbreviation item_result' :=
  (item_result ledger signed_block packed_transaction transaction_trace
     trace_id to_variant_with_abi transaction_sync from_variant
     to_detail_string EVT_RETHROW_EXCEPTIONS).

Lemma get_block_found s (w : World) b fields :
  lookup' s w = (Ok (Some b), w) ->
  block_to_variant b = Ok (v_object fields) ->
  get_block' s w =
  (Ok (v_object
         (set_field "ref_block_prefix" (v_uint (uint32_wrap (hash_word1 (block_id b))))
            (set_field "block_num" (v_uint (block_num b))
               (set_field "id" (v_hash (block_id b)) fields)))), w).
Proof.
  intros Hl Hv. unfold get_block, bind. rewrite Hl. unfold lift. by rewrite Hv.
Qed.

(** X5. When the identifier converts to the id of a stored block,
    [get_block] answers with that block; neither the numeric reading of
    the identifier nor the block stored at that height is consulted. The
    answer is the rendering of the block with the fields id, block_num
    and ref_block_prefix set. *)
Theorem get_block_by_id_precedence s (w : World) id b fields :
  parse_block_id s = Ok id ->
  fetch_block_by_id (w_ledger w) id = Ok (Some b) ->
  block_to_variant b = Ok (v_object fields) ->
  get_block ledger signed_block packed_transaction block_id block_num
    fetch_block_by_id fetch_block_by_number parse_block_id to_uint64
    block_to_variant EVT_RETHROW_EXCEPTIONS s w =
  (Ok (v_object
         (set_field "ref_block_prefix" (v_uint (uint32_wrap (hash_word1 (block_id b))))
            (set_field "block_num" (v_uint (block_num b))
               (set_field "id" (v_hash (block_id b)) fields)))), w).
Proof.
  intros Hp Hf Hv. apply get_block_found; [|done].
  unfold get_block_lookup, try_catch, bind, lift, read_ledger. by rewrite Hp, Hf.
Qed.

(** X6. In the answer of [get_block] the fields id, block_num and
    ref_block_prefix are those of the block found, whatever the codec
    rendered under these names; ref_block_prefix is the low 32 bits of the
    second word of the id; every other field of the rendering is kept. *)
Theorem get_block_response_fields s (w w' : World) out :
  get_block ledger signed_block packed_transaction block_id block_num
    fetch_block_by_id fetch_block_by_number parse_block_id to_uint64
    block_to_variant EVT_RETHROW_EXCEPTIONS s w = (Ok out, w') ->
  exists b fields answer,
    out = v_object answer /\
    block_to_variant b = Ok (v_object fields) /\
    get_field "id" answer = Some (v_hash (block_id b)) /\
    get_field "block_num" answer = Some (v_uint (block_num b)) /\
    get_field "ref_block_prefix" answer
    = Some (v_uint (hash_word1 (block_id b) mod 2 ^ 32)) /\
    (forall key, key <> "id"%string -> key <> "block_num"%string ->
       key <> "ref_block_prefix"%string ->
       get_field key answer = get_field key fields).
Proof.
  unfold get_block, bind.
  destruct (lookup' s w) as [[[b|]|e] w1]; [|done|done].
  unfold lift.
  destruct (block_to_variant b) as [v|e] eqn:Hv; [|done].
  destruct v as [| | | |fields]; simpl; try done.
  intros [= <- <-]. exists b, fields. eexists. split; [reflexivity|].
  split; [done|].
  split.
  { rewrite !get_field_set_field_ne by done. apply get_field_set_field_eq. }
  split.
  { rewrite get_field_set_field_ne by done. apply get_field_set_field_eq. }
  split; [apply get_field_set_field_eq|].
  intros key H1 H2 H3. by rewrite !get_field_set_field_ne by done.
Qed.

(** X7. The height handed to the ledger is the number reduced to 32
    bits: two decimal identifiers that name no block id and differ by a
    multiple of 2^32 get the same answer. *)
Theorem get_block_height_wraps s s' (w : World) id id' n n' :
  parse_block_id s = Ok id ->
  fetch_block_by_id (w_ledger w) id = Ok None ->
  to_uint64 s = Ok n ->
  parse_block_id s' = Ok id' ->
  fetch_block_by_id (w_ledger w) id' = Ok None ->
  to_uint64 s' = Ok n' ->
  n' mod 2 ^ 32 = n mod 2 ^ 32 ->
  get_block ledger signed_block packed_transaction block_id block_num
    fetch_block_by_id fetch_block_by_number parse_block_id to_uint64
    block_to_variant EVT_RETHROW_EXCEPTIONS s' w =
  get_block ledger signed_block packed_transaction block_id block_num
    fetch_block_by_id fetch_block_by_number parse_block_id to_uint64
    block_to_variant EVT_RETHROW_EXCEPTIONS s w.
Proof.
  intros Hp Hf Hn Hp' Hf' Hn' Hmod.
  unfold get_block, bind, get_block_lookup, try_catch, bind, lift, read_ledger.
  rewrite Hp, Hf, Hn, Hp', Hf', Hn'. unfold uint32_wrap. by rewrite Hmod.
Qed.

(** X8. When the transaction-sync method raises the memory-exhaustion
    exception, [push_transaction] raises [SIGUSR1] once after the call
    and returns normally, and what it returns is the null identifier with
    an empty output. *)
Theorem push_transaction_memory_exhaustion params (w : World) trx l' :
  from_variant params = Ok trx ->
  transaction_sync trx true (w_ledger w) = (Throw interprocess_bad_alloc, l') ->
  push_transaction ledger signed_block packed_transaction transaction_trace
    trace_id to_variant_with_abi transaction_sync from_variant
    EVT_RETHROW_EXCEPTIONS params w =
  (Ok (null_id, v_null),
   {| w_ledger := l';
      w_events := w_events w ++ [called_transaction_sync trx true; raised SIGUSR1] |}).
Proof.
  intros Hf Ht.
  unfold push_transaction, try_catch, bind, lift,
    incoming_transaction_sync_method, bind, emit, modify, on_ledger, raise,
    emit, modify, ret. simpl.
  rewrite Hf, Ht. simpl. by rewrite <- app_assoc.
Qed.

(** X9. When the argument does not decode as a packed transaction,
    [push_transaction] raises what the handler of the decoding makes of
    the failure, and nothing else happened: the transaction-sync method
    was not called and the ledger is as before. *)
Theorem push_transaction_undecodable params (w : World) e :
  from_variant params = Throw e ->
  is_bad_alloc (EVT_RETHROW_EXCEPTIONS packed_transaction_type_exception
                  invalid_packed_transaction_message e) = false ->
  push_transaction ledger signed_block packed_transaction transaction_trace
    trace_id to_variant_with_abi transaction_sync from_variant
    EVT_RETHROW_EXCEPTIONS params w =
  (Throw (EVT_RETHROW_EXCEPTIONS packed_transaction_type_exception
            invalid_packed_transaction_message e), w).
Proof.
  intros Hf Hb. unfold push_transaction, try_catch, bind, lift, throw.
  rewrite Hf. by rewrite Hb.
Qed.



Lemma push_transactions_loop_entries params : forall result (w w' : World) out,
  push_transactions_loop' params result w = (Ok out, w') ->
  exists entries, out = result ++ entries /\ Forall2 item_result' params entries.
Proof.
  induction params as [|item rest IH]; intros result w w' out.
  - simpl. unfold ret. intros [= <- _]. exists []. by rewrite app_nil_r.
  - rewrite push_transactions_loop_cons.
    destruct (push_transaction' item w) as [[r|e] w1] eqn:Hi.
    + intros H. apply IH in H as (entries & -> & Hf).
      exists (r :: entries). rewrite <- app_assoc. split; [done|].
      constructor; [|done]. exists w, w1. by left.
    + destruct e as [| |ty msg| |]; try done.
      intros H. apply IH in H as (entries & -> & Hf).
      exists (error_result to_detail_string ty msg :: entries).
      rewrite <- app_assoc. split; [done|].
      constructor; [|done]. exists w, w1. right. by exists ty, msg.
Qed.

(** X11. Whenever the loop of [push_transactions] runs to its end, the
    batch had at most 1000 items and the vector holds exactly one entry
    per item, in the order of the items: what [push_transaction] returned
    for the item, or the error record of the [fc::exception] it raised. *)
Theorem push_transactions_one_entry_per_item params (w w' : World) out :
  push_transactions_result ledger signed_block packed_transaction
    transaction_trace trace_id to_variant_with_abi transaction_sync
    from_variant to_detail_string EVT_RETHROW_EXCEPTIONS params w = (Ok out, w') ->
  (length params <= 1000)%nat /\
  length out = length params /\
  Forall2 (item_result ledger signed_block packed_transaction transaction_trace
             trace_id to_variant_with_abi transaction_sync from_variant
             to_detail_string EVT_RETHROW_EXCEPTIONS) params out.
Proof.
  unfold push_transactions_result, bind, FC_ASSERT.
  destruct (Nat.leb_spec (length params) 1000) as [Hle|Hgt]; simpl; [|done].
  intros H. apply push_transactions_loop_entries in H as (entries & -> & Hf).
  split; [done|]. simpl. split; [|done]. symmetry. by eapply Forall2_length.
Qed.

(** X12. The cap of [push_transactions] is 1000 items: a batch of 1000
    enters the loop, a longer one is refused with an assertion failure
    before any item is looked at, so that the state of the node is
    unchanged. *)
Theorem push_transactions_cap params (w : World) :
  ((length params <= 1000)%nat ->
     push_transactions_result ledger signed_block packed_transaction
       transaction_trace trace_id to_variant_with_abi transaction_sync
       from_variant to_detail_string EVT_RETHROW_EXCEPTIONS params w
     = push_transactions_loop ledger signed_block packed_transaction
         transaction_trace trace_id to_variant_with_abi transaction_sync
         from_variant to_detail_string EVT_RETHROW_EXCEPTIONS params [] w) /\
  ((1000 < length params)%nat ->
     push_transactions ledger signed_block packed_transaction
       transaction_trace trace_id to_variant_with_abi transaction_sync
       from_variant to_detail_string EVT_RETHROW_EXCEPTIONS params w
     = (Raised (fc_exception assert_exception too_many_transactions_message), w)).
Proof.
  unfold push_transactions, push_transactions_result, bind, FC_ASSERT. split.
  - intros Hle. destruct (Nat.leb_spec (length params) 1000); [done|lia].
  - intros Hgt. destruct (Nat.leb_spec (length params) 1000); [lia|done].
Qed.
End ChainApiMore.

(** Witnesses for the API properties. *)

Lemma get_block_by_id_precedence_witness :
  ex_get_block "2" ex_world_ambiguous =
  (Ok (v_object [("producer"%string, v_string "evt");
                 ("id"%string, v_hash (0, 0, 0, 2));
                 ("block_num"%string, v_uint 1);
                 ("ref_block_prefix"%string, v_uint 0)]), ex_world_ambiguous).
Proof.
  apply (get_block_by_id_precedence ex_ledger ex_block string fst snd
           ex_fetch_block_by_id ex_fetch_block_by_number ex_parse_block_id
           ex_to_uint64 ex_block_to_variant ex_rethrow
           "2"%string ex_world_ambiguous (0, 0, 0, 2) ((0, 0, 0, 2), 1)
           [("producer"%string, v_string "evt")]).
  - reflexivity.
  - reflexivity.
  - reflexivity.
Defined.

Lemma get_block_response_fields_witness :
  exists b fields answer,
    v_object [("producer"%string, v_string "evt");
              ("id"%string, v_hash (1, 0, 0, 1));
              ("block_num"%string, v_uint 1);
              ("ref_block_prefix"%string, v_uint 0)] = v_object answer /\
    ex_block_to_variant b = Ok (v_object fields) /\
    get_field "id" answer = Some (v_hash (fst b)) /\
    get_field "block_num" answer = Some (v_uint (snd b)) /\
    get_field "ref_block_prefix" answer
    = Some (v_uint (hash_word1 (fst b) mod 2 ^ 32)) /\
    (forall key, key <> "id"%string -> key <> "block_num"%string ->
       key <> "ref_block_prefix"%string ->
       get_field key answer = get_field key fields).
Proof.
  apply (get_block_response_fields ex_ledger ex_block string fst snd
           ex_fetch_block_by_id ex_fetch_block_by_number ex_parse_block_id
           ex_to_uint64 ex_block_to_variant ex_rethrow
           "1"%string ex_world_1 ex_world_1).
  reflexivity.
Defined.

Lemma get_block_height_wraps_witness :
  ex_get_block "4294967297" ex_world_1 = ex_get_block "1" ex_world_1.
Proof.
  apply (get_block_height_wraps ex_ledger ex_block string fst snd
           ex_fetch_block_by_id ex_fetch_block_by_number ex_parse_block_id
           ex_to_uint64 ex_block_to_variant ex_rethrow
           "1"%string "4294967297"%string ex_world_1
           (0, 0, 0, 1) (0, 0, 0, 0x4294967297) 1 4294967297).
  - reflexivity.
  - reflexivity.
  - reflexivity.
  - reflexivity.
  - reflexivity.
  - reflexivity.
  - reflexivity.
Defined.

Lemma push_transaction_memory_exhaustion_witness :
  push_transaction ex_ledger ex_block string ex_trace fst ex_to_variant_with_abi
    ex_transaction_sync_oom ex_from_variant ex_rethrow (v_string "tx1") ex_world_full =
  (Ok (null_id, v_null),
   {| w_ledger := w_ledger ex_world_full;
      w_events := [called_transaction_sync "tx1"%string true; raised SIGUSR1] |}).
Proof.
  apply (push_transaction_memory_exhaustion ex_ledger ex_block string ex_trace fst
           ex_to_variant_with_abi ex_transaction_sync_oom ex_from_variant ex_rethrow
           (v_string "tx1") ex_world_full "tx1"%string (w_ledger ex_world_full)).
  - reflexivity.
  - reflexivity.
Defined.

Lemma push_transaction_undecodable_witness :
  ex_push_transaction (v_uint 7) ex_world_1 =
  (Throw (fc_exception packed_transaction_type_exception
            invalid_packed_transaction_message), ex_world_1).
Proof.
  apply (push_transaction_undecodable ex_ledger ex_block string ex_trace fst
           ex_to_variant_with_abi ex_transaction_sync ex_from_variant ex_rethrow
           (v_uint 7) ex_world_1
           (fc_exception (other_fc_exception "bad_cast_exception")
              "Invalid cast to string")).
  - reflexivity.
  - reflexivity.
Defined.

Lemma push_transactions_one_entry_per_item_witness :
  (length ex_batch <= 1000)%nat /\
  length [((0, 0, 0, 3), v_object [("trx"%string, v_string "tx1")]);
          (null_id, v_object [("error"%string, v_string "Invalid packed transaction")]);
          ((0, 0, 0, 3), v_object [("trx"%string, v_string "tx3")])]
  = length ex_batch /\
  Forall2 (item_result ex_ledger ex_block string ex_trace fst ex_to_variant_with_abi
             ex_transaction_sync ex_from_variant ex_to_detail_string ex_rethrow)
    ex_batch
    [((0, 0, 0, 3), v_object [("trx"%string, v_string "tx1")]);
     (null_id, v_object [("error"%string, v_string "Invalid packed transaction")]);
     ((0, 0, 0, 3), v_object [("trx"%string, v_string "tx3")])].
Proof.
  apply (push_transactions_one_entry_per_item ex_ledger ex_block string ex_trace fst
           ex_to_variant_with_abi ex_transaction_sync ex_from_variant
           ex_to_detail_string ex_rethrow ex_batch ex_world_1
           {| w_ledger := [ex_block_1];
              w_events := [called_transaction_sync "tx1"%string true;
                           called_transaction_sync "tx3"%string true] |}).
  reflexivity.
Defined.

Lemma push_transactions_cap_witness :
  ex_push_transactions_result ex_batch ex_world_1
  = push_transactions_loop ex_ledger ex_block string ex_trace fst
      ex_to_variant_with_abi ex_transaction_sync ex_from_variant
      ex_to_detail_string ex_rethrow ex_batch [] ex_world_1 /\
  ex_push_transactions (replicate 1001 (v_string "tx")) ex_world_1
  = (Raised (fc_exception assert_exception too_many_transactions_message), ex_world_1).
Proof.
  split.
  - apply (proj1 (push_transactions_cap ex_ledger ex_block string ex_trace fst
                    ex_to_variant_with_abi ex_transaction_sync ex_from_variant
                    ex_to_detail_string ex_rethrow ex_batch ex_world_1)).
    simpl. lia.
  - apply (proj2 (push_transactions_cap ex_ledger ex_block string ex_trace fst
                    ex_to_variant_with_abi ex_transaction_sync ex_from_variant
                    ex_to_detail_string ex_rethrow
                    (replicate 1001 (v_string "tx")) ex_world_1)).
    rewrite length_replicate. lia.
Defined.

(** ** The ABI translation *)

Section AbiFacts.
Variable get_action_type : string -> string.
Variable struct_fields : string -> option variant.
Variable variant_to_binary : string -> variant -> outcome (list Byte.byte).
Variable binary_to_variant : string -> list Byte.byte -> outcome variant.
Variable rethrow_invalid_args : variant -> string -> variant -> exn -> exn.
Variable FC_CAPTURE_AND_RETHROW : string -> variant -> exn -> exn.

(** For an action that the ABI does not know, [abi_json_to_bin]
    fails with the unknown-action error as passed through the capturing
    handler, whatever the arguments are and whatever the encoder would
    make of them. *)
Lemma abi_json_to_bin_unknown_action action args :
  get_action_type action = EmptyString ->
  abi_json_to_bin get_action_type struct_fields variant_to_binary
    rethrow_invalid_args FC_CAPTURE_AND_RETHROW action args =
  Throw (FC_CAPTURE_AND_RETHROW action args
           (fc_exception (other_fc_exception "action_validate_exception")
              unknown_action_message)).
Proof. intros Ha. unfold abi_json_to_bin. by rewrite Ha. Qed.
End AbiFacts.

(** ** More on the genesis timestamp *)

(** X14. For a clock at or after the epoch and a positive block
    interval, the timestamp chosen for "now" is never earlier than the
    clock and less than ten block intervals later; it equals the clock
    exactly when the clock's millisecond offset is on a boundary. *)
Theorem genesis_timestamp_now_bounds interval now_us :
  0 < interval -> 0 <= now_us ->
  now_us <= genesis_timestamp_now interval now_us < now_us + 10000 * interval /\
  (genesis_timestamp_now interval now_us = now_us <->
   on_interval_boundary interval now_us).
Proof.
  intros Hi Hn. unfold genesis_timestamp_now, on_interval_boundary, ms_offset.
  assert (Hq : 0 <= Z.quot now_us 1000) by (apply Z.quot_pos; lia).
  pose proof (Z.rem_bound_pos (Z.quot now_us 1000) interval Hq Hi) as Hr.
  destruct (Z.ltb_spec 0 (Z.rem (Z.quot now_us 1000) interval)); split; try lia.
Qed.

Lemma genesis_timestamp_now_bounds_witness :
  1530000000250000 <= genesis_timestamp_now 500 1530000000250000
    < 1530000000250000 + 10000 * 500 /\
  (genesis_timestamp_now 500 1530000000250000 = 1530000000250000 <->
   on_interval_boundary 500 1530000000250000).
Proof. apply genesis_timestamp_now_bounds; lia. Defined.

(** ** More on the life cycle *)

Section PluginMore.
Variable variables_map : Type.
Variable controller_config : Type.
Variable controller : Type.
Variable block_interval_ms : Z.
Variable from_iso_string : string -> outcome Z.
Variable genesis_timestamp_option : variables_map -> option string.
Variable complete_config :
  variables_map -> Z -> controller_config -> outcome controller_config.
Variable make_controller : controller_config -> outcome controller.
Variable controller_startup : controller -> outcome controller.
Variable default_config : controller_config.

Local Abbreviation Node := (node controller_config controller).
Local Abbreviation reachable' :=
  (reachable variables_map controller_config controller block_interval_ms
     from_iso_string genesis_timestamp_option complete_config make_controller
     controller_startup default_config).

Lemma reachable_config_and_providers (n : Node) :
  reachable' n -> config_and_providers_invariant n.
Proof.
  induction 1 as [|n n' _ IH Hstep].
  - split; simpl; [by eexists|]. unfold provider_handles; simpl. by repeat constructor.
  - destruct Hstep as [options now_us impl impl' Hi| |impl impl' Hs| | |];
      unfold config_and_providers_invariant in *; simpl in *; try exact IH.
    + unfold plugin_initialize in Hi.
      repeat match type of Hi with
             | bind_outcome ?o _ = _ =>
                 destruct o; simpl in Hi; [|discriminate Hi]
             end.
      injection Hi as <-. split; simpl; [by eexists|].
      unfold provider_handles; simpl. repeat constructor; by eexists.
    + unfold plugin_startup in Hs.
      repeat match type of Hs with
             | bind_outcome ?o _ = _ =>
                 destruct o; simpl in Hs; [|discriminate Hs]
             end.
      injection Hs as <-. destruct IH as [_ Hp]. split; [done|exact Hp].
    + destruct IH as [Hc Hp]. split; [exact Hc|]. split; [exact Hp|done].
Qed.

(** X15. In every reachable Stopped state the controller is gone while
    the four method providers registered at configure time are still held:
    stopping releases the signal connections and the controller, never
    the providers. *)
Theorem providers_outlive_controller (n : Node) :
  reachable variables_map controller_config controller block_interval_ms
    from_iso_string genesis_timestamp_option complete_config make_controller
    controller_startup default_config n ->
  phase n = Stopped ->
  chain_accessor (my n) = Throw (fc_exception assert_exception "optional is not valid") /\
  Forall (fun h : option provider_handle => is_Some h) (provider_handles (my n)).
Proof.
  intros Hr Hp. apply reachable_config_and_providers in Hr.
  unfold config_and_providers_invariant in Hr. rewrite Hp in Hr.
  destruct Hr as (_ & Hh & Hc). split; [|exact Hh].
  unfold chain_accessor. by rewrite Hc.
Qed.

(** X16. In every reachable state the accessor [chain_config()] yields a
    configuration exactly in the phases Unconfigured, Configured and
    Starting: the configuration exists from construction on and is reset
    when start-up completes. *)
Theorem chain_config_until_started (n : Node) :
  reachable variables_map controller_config controller block_interval_ms
    from_iso_string genesis_timestamp_option complete_config make_controller
    controller_startup default_config n ->
  ((exists cfg, chain_config_accessor (my n) = Ok cfg) <->
   (phase n = Unconfigured \/ phase n = Configured \/ phase n = Starting)).
Proof.
  intros Hr. apply reachable_config_and_providers in Hr.
  unfold config_and_providers_invariant, chain_config_accessor in Hr |- *.
  destruct (phase n).
  - destruct Hr as [[cfg ->] _]. split; [by left|by exists cfg].
  - destruct Hr as [[cfg ->] _]. split; [by right; left|by exists cfg].
  - destruct Hr as [[cfg ->] _]. split; [by right; right|by exists cfg].
  - destruct Hr as [-> _]. split; [by intros [? ?]|by intros [?|[?|?]]].
  - destruct Hr as [-> _]. split; [by intros [? ?]|by intros [?|[?|?]]].
Qed.
End PluginMore.

Lemma ex_stopped_reachable : ex_reachable ex_stopped_node.
Proof.
  assert (H1 : ex_reachable {| phase := Starting; my := ex_configured_impl |}).
  { eapply reachable_step; [exact ex_configured_reachable|apply step_start_begin]. }
  assert (H2 : ex_reachable {| phase := Started; my := ex_started_impl |}).
  { eapply reachable_step; [exact H1|]. by apply step_start_end. }
  eapply reachable_step; [exact H2|apply step_stop].
Qed.

Lemma providers_outlive_controller_witness :
  chain_accessor (my ex_stopped_node)
  = Throw (fc_exception assert_exception "optional is not valid") /\
  Forall (fun h : option provider_handle => is_Some h)
    (provider_handles (my ex_stopped_node)).
Proof.
  apply (providers_outlive_controller unit Z Z 500 (fun _ => Ok 0) (fun _ => None)
           (fun _ _ cfg => Ok cfg) (fun _ => Ok 1) (fun c => Ok c) 1024).
  - exact ex_stopped_reachable.
  - reflexivity.
Defined.

Lemma chain_config_until_started_witness :
  (exists cfg, chain_config_accessor (my ex_configured_node) = Ok cfg) <->
  (phase ex_configured_node = Unconfigured \/ phase ex_configured_node = Configured \/
   phase ex_configured_node = Starting).
Proof.
  apply (chain_config_until_started unit Z Z 500 (fun _ => Ok 0) (fun _ => None)
           (fun _ _ cfg => Ok cfg) (fun _ => Ok 1) (fun c => Ok c) 1024).
  exact ex_configured_reachable.
Defined.

(** ** The replay and recovery switches *)

Lemma fc_remove_all_lookup (p q : path) (fs : filesystem) :
  snd (fc_remove_all p fs) !! q =
  if decide (p `prefix_of` q) then None else fs !! q.
Proof.
  unfold fc_remove_all, modify. simpl. rewrite map_lookup_filter.
  destruct (fs !! q) as [d|]; simpl.
  - destruct (decide (p `prefix_of` q)).
    + rewrite option_guard_False; [done|]. simpl. tauto.
    + by rewrite option_guard_True.
  - by destruct (decide _).
Qed.

Lemma run_remove_all {A} (p : path) (k : M filesystem A) (fs : filesystem) :
  (run fc_remove_all p; k) fs = k (snd (fc_remove_all p fs)).
Proof. reflexivity. Qed.

Section MaintenanceFacts.
Variable signed_block : Type.
Variable unpack : list Byte.byte -> outcome signed_block.
Variable pack : signed_block -> list Byte.byte.
Variable fits : Z -> list reversible_block_object -> reversible_block_object -> bool.
Variable reversible_blocks_dir_name : string.
Variable repair_log : path -> M filesystem path.
Variable copy_reversible_back : path -> path -> M filesystem unit.

Local Abbreviation maintenance :=
  (pre_start_maintenance signed_block unpack pack fits reversible_blocks_dir_name
     repair_log copy_reversible_back).

(** X17. With fix-reversible-blocks as the only switch the maintenance
    never completes: whether the recovery returns true or false,
    [fixed_reversible_db_exception] is raised in the state the recovery
    left, and an exception of the recovery itself is passed on. *)
Theorem fix_reversible_always_raises (options : maintenance_options) (state_dir blocks_dir : path)
    (size : Z) (now : string) (fs : filesystem) :
  delete_all_blocks options = false ->
  hard_replay_blockchain options = false ->
  replay_blockchain options = false ->
  fix_reversible_blocks options = true ->
  pre_start_maintenance signed_block unpack pack fits reversible_blocks_dir_name
    repair_log copy_reversible_back options state_dir blocks_dir size now fs =
  (match fst (recover_reversible_blocks signed_block unpack pack fits
                (blocks_dir ++ [reversible_blocks_dir_name])
                (recovery_cache_size size) None now fs) with
   | Ok _ => Throw (fc_exception fixed_reversible_db_exception fixed_message)
   | Throw e => Throw e
   end,
   snd (recover_reversible_blocks signed_block unpack pack fits
          (blocks_dir ++ [reversible_blocks_dir_name])
          (recovery_cache_size size) None now fs)).
Proof.
  intros Hd Hh Hr Hf. unfold pre_start_maintenance. rewrite Hd, Hh, Hr, Hf.
  unfold bind, throw.
  by destruct (recover_reversible_blocks _ _ _ _ _ _ _ _ _) as [[b|e] fs1].
Qed.

(** X18. delete-all-blocks wins over every other switch: the
    maintenance completes, everything at or below the state directory and
    the blocks directory is gone, every other path is as before, and the
    recovery is not run. *)
Theorem delete_all_blocks_first (options : maintenance_options) (state_dir blocks_dir : path)
    (size : Z) (now : string) (fs : filesystem) :
  delete_all_blocks options = true ->
  fst (pre_start_maintenance signed_block unpack pack fits reversible_blocks_dir_name
         repair_log copy_reversible_back options state_dir blocks_dir size now fs)
  = Ok tt /\
  forall q : path,
    snd (pre_start_maintenance signed_block unpack pack fits
           reversible_blocks_dir_name repair_log copy_reversible_back options
           state_dir blocks_dir size now fs) !! q =
    if decide (state_dir `prefix_of` q \/ blocks_dir `prefix_of` q) then None
    else fs !! q.
Proof.
  intros Hd. unfold pre_start_maintenance. rewrite Hd, run_remove_all.
  split; [reflexivity|]. intros q. rewrite !fc_remove_all_lookup.
  destruct (decide (blocks_dir `prefix_of` q)), (decide (state_dir `prefix_of` q));
    destruct (decide _); tauto.
Qed.

(** X19. replay-blockchain without fix-reversible-blocks (and without
    the two stronger switches) removes the state directory and nothing
    else: the reversible store is not opened, not even when it is
    dirty. *)
Theorem replay_keeps_reversible (options : maintenance_options) (state_dir blocks_dir : path)
    (size : Z) (now : string) (fs : filesystem) :
  delete_all_blocks options = false ->
  hard_replay_blockchain options = false ->
  replay_blockchain options = true ->
  fix_reversible_blocks options = false ->
  fst (pre_start_maintenance signed_block unpack pack fits reversible_blocks_dir_name
         repair_log copy_reversible_back options state_dir blocks_dir size now fs)
  = Ok tt /\
  forall q : path,
    snd (pre_start_maintenance signed_block unpack pack fits
           reversible_blocks_dir_name repair_log copy_reversible_back options
           state_dir blocks_dir size now fs) !! q =
    if decide (state_dir `prefix_of` q) then None else fs !! q.
Proof.
  intros Hd Hh Hr Hf. unfold pre_start_maintenance.
  rewrite Hd, Hh, Hr, Hf, run_remove_all.
  split; [reflexivity|]. intros q. apply fc_remove_all_lookup.
Qed.

(** X20. hard-replay-blockchain without fix-reversible-blocks does not
    attempt the recovery when the backup that the log repair left holds
    no reversible directory: the maintenance completes in the state the
    repair left. *)
Theorem hard_replay_without_reversible (options : maintenance_options) (state_dir blocks_dir : path)
    (size : Z) (now : string) (fs fs1 : filesystem) (backup_dir : path) :
  delete_all_blocks options = false ->
  hard_replay_blockchain options = true ->
  fix_reversible_blocks options = false ->
  repair_log blocks_dir (snd (fc_remove_all state_dir fs)) = (Ok backup_dir, fs1) ->
  fs1 !! (backup_dir ++ [reversible_blocks_dir_name]) = None ->
  pre_start_maintenance signed_block unpack pack fits reversible_blocks_dir_name
    repair_log copy_reversible_back options state_dir blocks_dir size now fs
  = (Ok tt, fs1).
Proof.
  intros Hd Hh Hf Hrep Hnone. unfold pre_start_maintenance.
  rewrite Hd, Hh, Hf, run_remove_all.
  unfold bind at 1. rewrite Hrep. unfold bind at 1, fc_exists. rewrite Hnone.
  rewrite bool_decide_eq_false_2; [done|]. by intros [? ?].
Qed.
End MaintenanceFacts.

Lemma fix_reversible_always_raises_witness :
  ex_maintenance ex_only_fix ex_state_dir ex_blocks_dir 1024 ex_now ex_fs_node =
  (Throw (fc_exception fixed_reversible_db_exception fixed_message),
   snd (ex_recover ex_reversible_dir 1024 None ex_now ex_fs_node)).
Proof.
  apply (fix_reversible_always_raises _ ex_unpack ex_pack ex_fits "reversible"
           ex_repair_log ex_copy_back ex_only_fix ex_state_dir ex_blocks_dir
           1024 ex_now ex_fs_node); reflexivity.
Defined.

Lemma delete_all_blocks_first_witness :
  fst (ex_maintenance ex_delete_all ex_state_dir ex_blocks_dir 1024 ex_now ex_fs_node)
  = Ok tt /\
  forall q : path,
    snd (ex_maintenance ex_delete_all ex_state_dir ex_blocks_dir 1024 ex_now ex_fs_node)
      !! q =
    if decide (ex_state_dir `prefix_of` q \/ ex_blocks_dir `prefix_of` q) then None
    else ex_fs_node !! q.
Proof.
  apply (delete_all_blocks_first _ ex_unpack ex_pack ex_fits "reversible"
           ex_repair_log ex_copy_back ex_delete_all ex_state_dir ex_blocks_dir
           1024 ex_now ex_fs_node).
  reflexivity.
Defined.

Lemma replay_keeps_reversible_witness :
  fst (ex_maintenance ex_only_replay ex_state_dir ex_blocks_dir 1024 ex_now ex_fs_node)
  = Ok tt /\
  forall q : path,
    snd (ex_maintenance ex_only_replay ex_state_dir ex_blocks_dir 1024 ex_now ex_fs_node)
      !! q =
    if decide (ex_state_dir `prefix_of` q) then None else ex_fs_node !! q.
Proof.
  apply (replay_keeps_reversible _ ex_unpack ex_pack ex_fits "reversible"
           ex_repair_log ex_copy_back ex_only_replay ex_state_dir ex_blocks_dir
           1024 ex_now ex_fs_node); reflexivity.
Defined.

Lemma hard_replay_without_reversible_witness :
  ex_maintenance ex_only_hard_replay ex_state_dir ex_blocks_dir 1024 ex_now ex_fs_data
  = (Ok tt,
     <[ ex_blocks_dir := PlainDir ]>
       (<[ ex_blocks_backup := PlainDir ]> {[ ["data"%string] := PlainDir ]})).
Proof.
  apply (hard_replay_without_reversible _ ex_unpack ex_pack ex_fits "reversible"
           ex_repair_log ex_copy_back ex_only_hard_replay ex_state_dir ex_blocks_dir
           1024 ex_now ex_fs_data
           (<[ ex_blocks_dir := PlainDir ]>
              (<[ ex_blocks_backup := PlainDir ]> {[ ["data"%string] := PlainDir ]}))
           ex_blocks_backup).
  - reflexivity.
  - reflexivity.
  - reflexivity.
  - by_evaluation.
  - by_evaluation.
Defined.

(** ** More on the recovery *)

Lemma uint32_count k :
  Nat.iter k (fun n => uint32_add n 1) 0 = uint32_wrap (Z.of_nat k).
Proof.
  induction k as [|k IH]; [reflexivity|].
  rewrite Nat.iter_succ, IH. unfold uint32_add, uint32_wrap.
  rewrite Zplus_mod_idemp_l. f_equal. lia.
Qed.

Lemma last_cons_default {A} (x : A) l d d' : List.last (x :: l) d = List.last (x :: l) d'.
Proof. revert x. induction l as [|y l IH]; intros x; [done|]. apply (IH y). Qed.

Section RecoveryMore.
Variable signed_block : Type.
Variable unpack : list Byte.byte -> outcome signed_block.
Variable pack : signed_block -> list Byte.byte.
Variable fits : Z -> list reversible_block_object -> reversible_block_object -> bool.

Local Abbreviation recover :=
  (recover_reversible_blocks signed_block unpack pack fits).
Local Abbreviation copy_loop' := (copy_loop signed_block unpack pack fits).
Local Abbreviation create' :=
  (create_reversible_block_object signed_block unpack pack fits).
Local Abbreviation rebuild' := (rebuild signed_block unpack pack fits).
Local Abbreviation nothrow' := (copy_blocks_nothrow signed_block unpack pack fits).
Local Abbreviation reencoded := (reencoded unpack pack).

(** One run of the loop: the prefix copied, what was created for it, and
    the counters. *)
Lemma copy_loop_run cache itr st :
  exists done rest created,
    itr = done ++ rest /\
    Forall2 reencoded done created /\
    default [] (new_rows (snd (copy_loop' cache itr st)))
      ≡ₚ default [] (new_rows st) ++ created /\
    consecutive_from (uint32_add (end_ st) 1) done /\
    start (snd (copy_loop' cache itr st)) = start st /\
    num (snd (copy_loop' cache itr st))
    = Nat.iter (length done) (fun n => uint32_add n 1) (num st) /\
    end_ (snd (copy_loop' cache itr st)) = List.last (map blocknum done) (end_ st).
Proof.
  revert st. induction itr as [|r itr IH]; intros st.
  - exists [], [], []. simpl. rewrite app_nil_r. repeat split; auto.
  - rewrite copy_loop_cons.
    destruct (Z.eqb_spec (blocknum r) (uint32_add (end_ st) 1)) as [Hr|Hr].
    + pose proof (create_spec _ unpack pack fits cache r st) as Hc.
      destruct (create' cache r st) as [[[]|e] st1].
      * destruct Hc as (o & Ho & Hrows & Hnum & Hstart & Hend).
        destruct (IH (count_block st1 (blocknum r)))
          as (done & rest & created & -> & Hf & Hp & Hcons & Hs & Hn & He).
        exists (r :: done), rest, (o :: created).
        split; [done|]. split; [by constructor|].
        split.
        { rewrite Hp. simpl. rewrite Hrows. simpl.
          rewrite insert_by_num_perm. by rewrite <- app_assoc. }
        split; [simpl; split; [exact Hr|rewrite <- Hr; exact Hcons]|].
        split; [by rewrite Hs|].
        split.
        { rewrite Hn. cbn [length]. rewrite Nat.iter_succ_r.
          unfold count_block. cbn [num]. by rewrite Hnum. }
        rewrite He. unfold count_block. cbn [end_].
        destruct done as [|x l]; [reflexivity|].
        cbn [map].
        change (List.last (blocknum r :: blocknum x :: map blocknum l) (end_ st))
          with (List.last (blocknum x :: map blocknum l) (end_ st)).
        apply last_cons_default.
      * subst st1. exists [], (r :: itr), []. simpl. rewrite app_nil_r.
        repeat split; auto.
    + exists [], (r :: itr), []. simpl. rewrite app_nil_r.
      repeat split; auto.
Qed.

(** X21. Whatever stops the copy, the rows copied are a prefix of the
    old index whose heights follow one another without a gap (in
    [uint32_t] arithmetic); the new store holds its previous rows and the
    re-encoded prefix; and the counters of the closing log line are the
    length of the prefix, its first height and its last height. *)
Theorem copy_blocks_consecutive_prefix cache old new :
  exists done rest created,
    default [] (db_index old) = done ++ rest /\
    Forall2 reencoded done created /\
    default [] (new_rows (copy_blocks_nothrow signed_block unpack pack fits
                            cache old new))
      ≡ₚ default [] (db_index new) ++ created /\
    match done with
    | [] =>
        recovery_summary (copy_blocks_nothrow signed_block unpack pack fits
                            cache old new) = NoRecoverableBlocks
    | r0 :: _ =>
        consecutive_from (blocknum r0) done /\
        num (copy_blocks_nothrow signed_block unpack pack fits cache old new)
        = uint32_wrap (Z.of_nat (length done)) /\
        start (copy_blocks_nothrow signed_block unpack pack fits cache old new)
        = blocknum r0 /\
        end_ (copy_blocks_nothrow signed_block unpack pack fits cache old new)
        = List.last (map blocknum done) (blocknum r0)
    end.
Proof.
  destruct (db_index old) as [ubi|] eqn:Hi.
  - rewrite (nothrow_some _ unpack pack fits _ _ _ _ Hi).
    destruct (copy_loop_run cache ubi (loop_entry_state ubi (initial_copy_state new)))
      as (done & rest & created & Hsplit & Hf & Hp & Hcons & Hs & Hn & He).
    exists done, rest, created. split; [done|]. split; [done|].
    split.
    { rewrite Hp. by destruct ubi. }
    destruct done as [|r0 done].
    + unfold recovery_summary. rewrite Hn. simpl. by destruct ubi.
    + destruct ubi as [|u ubi]; [done|]. injection Hsplit as -> ->.
      destruct Hcons as [Hr0 Hcons]. split.
      { split; [done|]. by rewrite Hr0. }
      split.
      { rewrite Hn. simpl num. apply uint32_count. }
      split; [by rewrite Hs|].
      rewrite He. apply last_cons_default.
  - exists [], [], []. rewrite app_nil_r. split; [done|]. split; [done|].
    unfold copy_blocks_nothrow, try_catch.
    destruct (copy_blocks_none _ unpack pack fits cache old
                (initial_copy_state new) Hi) as [e ->].
    simpl. by rewrite app_nil_r.
Qed.

Lemma rebuild_cases (cache : Z) (backup_dir reversible_dir : path) (fs : filesystem) :
  (exists e, rebuild' cache backup_dir reversible_dir fs = (Throw e, fs)) \/
  (exists rows,
     rebuild' cache backup_dir reversible_dir fs =
     (Ok true,
      <[reversible_dir := DbDir {| db_dirty := false; db_index := rows |}]> fs)).
Proof.
  unfold rebuild, bind, get, lift, database_close, modify, ret.
  destruct (database_open fs backup_dir read_only true) as [old|e]; [|left; by eexists].
  destruct (database_open fs reversible_dir read_write false) as [new|e];
    [|left; by eexists].
  right. by eexists.
Qed.

Lemma prepare_directories_alternate (db_dir nd : path) (now : string)
    (fs : filesystem) d :
  fs !! db_dir = Some d ->
  prepare_directories db_dir (Some nd) now fs =
  (Ok (strip_dot db_dir, nd), snd (fc_create_directories nd fs)).
Proof.
  intros Hd. unfold prepare_directories, bind, fc_canonical, ret. by rewrite Hd.
Qed.

Lemma prepare_directories_in_place (db_dir : path) (now : string)
    (fs : filesystem) d :
  fs !! db_dir = Some d ->
  String.eqb (filename db_dir) "." = false ->
  fs !! backup_path db_dir now = None ->
  prepare_directories db_dir None now fs =
  (Ok (backup_path db_dir now, db_dir),
   snd (fc_create_directories db_dir
          (snd (fc_rename db_dir (backup_path db_dir now) fs)))).
Proof.
  intros Hd Hdot Hb.
  assert (Hs : strip_dot db_dir = db_dir) by (unfold strip_dot; by rewrite Hdot).
  unfold prepare_directories, bind, fc_canonical, FC_ASSERT, fc_exists,
    fc_rename, ret, throw.
  rewrite Hd. cbv beta iota zeta. rewrite Hs, Hdot.
  change (negb false) with true. cbv beta iota zeta. rewrite Hb.
  rewrite bool_decide_eq_false_2 by (by intros [? ?]).
  change (negb false) with true. cbv beta iota zeta. rewrite Hd.
  reflexivity.
Qed.

Lemma prepare_directories_live (db_dir : path) (new_db_dir : option path)
    (now : string) (fs fs1 : filesystem) dirs :
  prepare_directories db_dir new_db_dir now fs = (Ok dirs, fs1) ->
  snd dirs = live_dir db_dir new_db_dir.
Proof.
  unfold prepare_directories, bind at 1, fc_canonical.
  destruct (fs !! db_dir) as [d|]; [|done].
  unfold bind at 1.
  destruct new_db_dir as [nd|].
  - unfold ret at 1, bind, fc_create_directories, modify. simpl.
    by intros [= <- _].
  - unfold bind at 1, FC_ASSERT.
    destruct (negb (String.eqb (filename (strip_dot db_dir)) ".")); [|done].
    unfold ret at 1, bind at 1, fc_exists.
    destruct (negb (bool_decide _)); [|done].
    unfold ret at 1, bind at 1, bind at 1, fc_rename.
    destruct (fs !! strip_dot db_dir) as [x|]; [|done].
    unfold ret at 1, bind, fc_create_directories, modify. simpl.
    by intros [= <- _].
Qed.

(** X22. After a recovery that returned true, the directory that holds
    the rebuilt store opens clean: a further recovery of it returns false
    and changes nothing, whatever its cache size, destination and clock. *)
Theorem recover_again_is_noop (db_dir : path) (cache : Z) (new_db_dir : option path)
    (now : string) (fs fs1 : filesystem)
    (cache' : Z) (new_db_dir' : option path) (now' : string) :
  recover_reversible_blocks signed_block unpack pack fits
    db_dir cache new_db_dir now fs = (Ok true, fs1) ->
  recover_reversible_blocks signed_block unpack pack fits
    (live_dir db_dir new_db_dir) cache' new_db_dir' now' fs1 = (Ok false, fs1).
Proof.
  unfold recover_reversible_blocks at 1.
  destruct (database_open fs db_dir read_only false) as [d|e]; [done|].
  destruct (is_runtime_error e); [|done].
  unfold bind.
  destruct (prepare_directories db_dir new_db_dir now fs) as [[dirs|e'] fs0] eqn:Hp;
    [|done].
  apply prepare_directories_live in Hp.
  destruct (rebuild_cases cache (fst dirs) (snd dirs) fs0) as [[e' ->]|[rows ->]];
    [done|].
  intros [= <-]. rewrite Hp.
  unfold recover_reversible_blocks, database_open.
  by rewrite lookup_insert_eq.
Qed.

(** The backup name is a sibling of the directory: it lies neither at
    nor below it, and the directory lies neither at nor below the backup
    name. *)
Lemma backup_path_length (p : path) (now : string) :
  (length p <= length (backup_path p now))%nat.
Proof.
  unfold backup_path, parent_path. rewrite length_app. simpl.
  destruct p as [|c p]; [simpl; lia|].
  rewrite (app_removelast_last EmptyString (l := c :: p)) at 1 by done.
  rewrite length_app. simpl. lia.
Qed.

Lemma backup_path_not_above (p : path) (now : string) :
  backup_path p now <> p -> ~ backup_path p now `prefix_of` p.
Proof.
  intros Hne [s Hs]. pose proof (backup_path_length p now) as Hl.
  assert (length s = 0%nat) as Hs0.
  { apply (f_equal length) in Hs. rewrite length_app in Hs. lia. }
  destruct s; [|done]. rewrite app_nil_r in Hs. by destruct Hne.
Qed.

(** X23. A recovery that renames the dirty store in place never loses
    it: whatever the recovery returns or raises afterwards, every entry
    that was at or below [db_dir] is found unchanged at the same place
    under the backup name; and outside the two directories nothing is
    changed, except that directories missing above [db_dir] are
    created. *)
Theorem recover_keeps_old_store (db_dir : path) (cache : Z) (now : string)
    (fs : filesystem) e d :
  database_open fs db_dir read_only false = Throw e ->
  is_runtime_error e = true ->
  fs !! db_dir = Some d ->
  String.eqb (filename db_dir) "." = false ->
  fs !! backup_path db_dir now = None ->
  (forall (s : path) v, fs !! (db_dir ++ s) = Some v ->
     snd (recover_reversible_blocks signed_block unpack pack fits
            db_dir cache None now fs) !! (backup_path db_dir now ++ s) = Some v) /\
  (forall q : path,
     ~ db_dir `prefix_of` q -> ~ backup_path db_dir now `prefix_of` q ->
     snd (recover_reversible_blocks signed_block unpack pack fits
            db_dir cache None now fs) !! q =
     match fs !! q with
     | Some v => Some v
     | None => if decide (q <> [] /\ q `prefix_of` db_dir) then Some PlainDir else None
     end).
Proof.
  intros He Hr Hd Hdot Hb.
  assert (Hne : backup_path db_dir now <> db_dir) by congruence.
  pose proof (backup_path_not_above db_dir now Hne) as Hna.
  rewrite (recover_dirty_unfold _ unpack pack fits _ _ _ _ _ _ He Hr).
  unfold bind. rewrite (prepare_directories_in_place _ _ _ _ Hd Hdot Hb).
  cbn [fst snd].
  destruct (fc_rename_lookup db_dir (backup_path db_dir now) fs d Hd)
    as (_ & Hmoved & Hrest).
  set (fs1 := snd (fc_rename db_dir (backup_path db_dir now) fs)) in *.
  set (fs2 := snd (fc_create_directories db_dir fs1)).
  assert (Hkept : forall (s : path) v, fs !! (db_dir ++ s) = Some v ->
            fs2 !! (backup_path db_dir now ++ s) = Some v).
  { intros s v Hs. unfold fs2. rewrite create_directories_lookup.
    by rewrite (Hmoved s v Hs). }
  assert (Helse : forall q : path,
            ~ db_dir `prefix_of` q -> ~ backup_path db_dir now `prefix_of` q ->
            fs2 !! q =
            match fs !! q with
            | Some v => Some v
            | None =>
                if decide (q <> [] /\ q `prefix_of` db_dir) then Some PlainDir else None
            end).
  { intros q H1 H2. unfold fs2. rewrite create_directories_lookup.
    rewrite (Hrest q H2). by destruct (decide (db_dir `prefix_of` q)). }
  assert (Hbelow : forall s : path, backup_path db_dir now ++ s <> db_dir).
  { intros s Hs. apply Hna. by exists s. }
  destruct (rebuild_cases cache (backup_path db_dir now) db_dir fs2)
    as [[e' ->]|[rows ->]]; simpl snd.
  - by split.
  - split.
    + intros s v Hs. rewrite lookup_insert_ne by (intros Heq; by apply (Hbelow s)).
      by apply Hkept.
    + intros q H1 H2. rewrite lookup_insert_ne by (intros ->; by apply H1).
      by apply Helse.
Qed.

(** X24. A recovery into an alternate destination changes nothing but
    the destination and the directories missing above it: whatever it
    returns or raises, a path that is neither the destination nor a
    missing directory above it is as before; the dirty store in
    particular. *)
Theorem recover_touches_only_destination (db_dir : path) (cache : Z) (nd : path)
    (now : string) (fs : filesystem) (q : path) :
  q <> nd ->
  is_Some (fs !! q) \/ ~ q `prefix_of` nd ->
  snd (recover_reversible_blocks signed_block unpack pack fits
         db_dir cache (Some nd) now fs) !! q = fs !! q.
Proof.
  intros Hq Hkeep. unfold recover_reversible_blocks.
  destruct (database_open fs db_dir read_only false) as [d|e]; [done|].
  destruct (is_runtime_error e); [|done].
  unfold bind at 1.
  destruct (fs !! db_dir) as [d|] eqn:Hd.
  - rewrite (prepare_directories_alternate _ _ _ _ _ Hd). cbn [fst snd].
    assert (Hfs0 : snd (fc_create_directories nd fs) !! q = fs !! q).
    { rewrite create_directories_lookup.
      destruct (fs !! q) as [v|] eqn:Hv; [done|].
      destruct Hkeep as [[v Hv']|Hn]; [done|].
      destruct (decide (q <> [] /\ q `prefix_of` nd)) as [[_ Hp]|]; [|done].
      by destruct Hn. }
    destruct (rebuild_cases cache (strip_dot db_dir) nd
                (snd (fc_create_directories nd fs))) as [[e' ->]|[rows ->]].
    + exact Hfs0.
    + simpl snd. by rewrite lookup_insert_ne.
  - unfold prepare_directories, bind, fc_canonical. by rewrite Hd.
Qed.

(** X25. When every row of the old index decodes and fits and the
    heights are [b], [b+1], ... without a gap, the recovery into a fresh
    store copies all of them: it returns true and the live store holds
    exactly the re-encoded rows, in order. *)
Theorem recover_copies_all (db_dir : path) (cache : Z)
    (new_db_dir : option path) (now : string) (fs fs1 : filesystem) e
    (backup_dir reversible_dir : path) old new
    (r0 : reversible_block_object) rows created b :
  database_open fs db_dir read_only false = Throw e ->
  is_runtime_error e = true ->
  prepare_directories db_dir new_db_dir now fs = (Ok (backup_dir, reversible_dir), fs1) ->
  database_open fs1 backup_dir read_only true = Ok old ->
  database_open fs1 reversible_dir read_write false = Ok new ->
  db_index new = None ->
  db_index old = Some (r0 :: rows) ->
  contiguous_from b (r0 :: rows) -> 0 <= b ->
  b + Z.of_nat (length (r0 :: rows)) < 2 ^ 32 ->
  Forall2 reencoded (r0 :: rows) created ->
  (forall rs o, fits cache rs o = true) ->
  recover_reversible_blocks signed_block unpack pack fits
    db_dir cache new_db_dir now fs =
  (Ok true,
   <[reversible_dir := DbDir {| db_dirty := false; db_index := Some created |}]> fs1).
Proof.
  intros He Hr Hp Ho Hn Hfresh Hold Hc Hb Hlen Hf Hfits.
  rewrite (recover_dirty_unfold _ unpack pack fits _ _ _ _ _ _ He Hr). unfold bind.
  rewrite Hp. simpl. rewrite (rebuild_spec _ unpack pack fits _ _ _ _ _ _ Ho Hn).
  rewrite (nothrow_some _ unpack pack fits _ _ _ _ Hold).
  assert (Hb0 : blocknum r0 = b) by (by destruct Hc).
  edestruct (copy_loop_contiguous _ unpack pack fits cache (r0 :: rows) created []
               (loop_entry_state (r0 :: rows) (initial_copy_state new)) b [])
    as (st' & Heq & Hrows & Hend); try eassumption.
  - simpl. by rewrite Hfresh.
  - constructor.
  - simpl. rewrite Hb0. apply uint32_add_sub_1. unfold is_uint32. simpl in Hlen. lia.
  - rewrite app_nil_r in Heq. rewrite Heq. simpl. by rewrite Hrows.
Qed.

(** X26. An old store without rows gives a recovery that returns true
    with nothing copied: if the old index is empty the live store gets an
    empty index (or keeps the rows it had), if the old store has no index
    at all the live store is left without one too; in both cases the
    closing log line reports no recoverable blocks. *)
Theorem recover_nothing_to_copy (db_dir : path) (cache : Z)
    (new_db_dir : option path) (now : string) (fs fs1 : filesystem) e
    (backup_dir reversible_dir : path) old new :
  database_open fs db_dir read_only false = Throw e ->
  is_runtime_error e = true ->
  prepare_directories db_dir new_db_dir now fs = (Ok (backup_dir, reversible_dir), fs1) ->
  database_open fs1 backup_dir read_only true = Ok old ->
  database_open fs1 reversible_dir read_write false = Ok new ->
  default [] (db_index old) = [] ->
  recover_reversible_blocks signed_block unpack pack fits
    db_dir cache new_db_dir now fs =
  (Ok true,
   <[reversible_dir :=
       DbDir {| db_dirty := false;
                db_index := match db_index old with
                            | Some _ => Some (default [] (db_index new))
                            | None => db_index new
                            end |}]> fs1) /\
  recovery_summary (copy_blocks_nothrow signed_block unpack pack fits cache old new)
  = NoRecoverableBlocks.
Proof.
  intros He Hr Hp Ho Hn Hempty.
  rewrite (recover_dirty_unfold _ unpack pack fits _ _ _ _ _ _ He Hr). unfold bind.
  rewrite Hp. simpl fst. simpl snd.
  rewrite (rebuild_spec _ unpack pack fits _ _ _ _ _ _ Ho Hn).
  destruct (db_index old) as [ubi|] eqn:Hi.
  - simpl in Hempty. subst ubi.
    by rewrite (nothrow_some _ unpack pack fits _ _ _ _ Hi).
  - unfold copy_blocks_nothrow, try_catch.
    by destruct (copy_blocks_none _ unpack pack fits cache old
                   (initial_copy_state new) Hi) as [e' ->].
Qed.
End RecoveryMore.

Lemma recover_again_is_noop_witness :
  ex_recover (live_dir ex_reversible_dir None) 4096 None "2018-06-27T09:00:00"
    (<[ex_reversible_dir := ex_clean [ex_row 5]]> ex_fs_gap_renamed)
  = (Ok false, <[ex_reversible_dir := ex_clean [ex_row 5]]> ex_fs_gap_renamed).
Proof.
  apply (recover_again_is_noop _ ex_unpack ex_pack ex_fits
           ex_reversible_dir 1024 None ex_now ex_fs_gap).
  by_evaluation.
Defined.

(** X23, at a dirty store with a directory below it. *)
Lemma recover_keeps_old_store_witness :
  (forall (s : path) v, ex_fs_gap_child !! (ex_reversible_dir ++ s) = Some v ->
     snd (ex_recover ex_reversible_dir 1024 None ex_now ex_fs_gap_child)
       !! (backup_path ex_reversible_dir ex_now ++ s) = Some v) /\
  (forall q : path,
     ~ ex_reversible_dir `prefix_of` q ->
     ~ backup_path ex_reversible_dir ex_now `prefix_of` q ->
     snd (ex_recover ex_reversible_dir 1024 None ex_now ex_fs_gap_child) !! q =
     match ex_fs_gap_child !! q with
     | Some v => Some v
     | None =>
         if decide (q <> [] /\ q `prefix_of` ex_reversible_dir)
         then Some PlainDir else None
     end).
Proof.
  apply (recover_keeps_old_store _ ex_unpack ex_pack ex_fits
           ex_reversible_dir 1024 ex_now ex_fs_gap_child
           (std_runtime_error "database dirty flag set")
           (ex_dirty [ex_row 5; ex_row 7])).
  - by_evaluation.
  - reflexivity.
  - by_evaluation.
  - reflexivity.
  - by_evaluation.
Defined.

(** The same run, path by path: the store and the directory below it are
    under the backup name, nothing is left below the live directory, and
    the live directory holds the rebuilt store. *)
Example recover_moves_subtree :
  ex_recover ex_reversible_dir 1024 None ex_now ex_fs_gap_child
  = (Ok true,
     <[ ex_reversible_dir := ex_clean [ex_row 5] ]>
       (<[ ex_backup_dir ++ ["tmp"%string] := PlainDir ]>
          (<[ ex_backup_dir := ex_dirty [ex_row 5; ex_row 7] ]> ex_fs_data))).
Proof. by_evaluation. Qed.

(** X24, at the dirty store of a recovery into a destination none of
    whose parents exists. *)
Lemma recover_touches_only_destination_witness :
  snd (ex_recover ex_reversible_dir 1024 (Some ex_deep_dir) ex_now ex_fs_gap)
    !! ex_reversible_dir
  = ex_fs_gap !! ex_reversible_dir.
Proof.
  apply (recover_touches_only_destination _ ex_unpack ex_pack ex_fits).
  - discriminate.
  - left. vm_compute. eexists. reflexivity.
Defined.

(** The same run as a whole: the two missing parents of the destination
    are created with it. *)
Example recover_creates_parents :
  ex_recover ex_reversible_dir 1024 (Some ex_deep_dir) ex_now ex_fs_gap
  = (Ok true,
     <[ ex_deep_dir := ex_clean [ex_row 5] ]>
       (<[ ["new"; "deep"]%string := PlainDir ]>
          (<[ ["new"%string] := PlainDir ]> ex_fs_gap))).
Proof. by_evaluation. Qed.

Lemma recover_copies_all_witness :
  ex_recover ex_reversible_dir 1024 None ex_now
    (<[ ex_reversible_dir := ex_dirty [ex_row 5; ex_row 6; ex_row 7] ]> ex_fs_data)
  = (Ok true,
     <[ ex_reversible_dir := ex_clean [ex_row 5; ex_row 6; ex_row 7] ]>
       (<[ ex_reversible_dir := PlainDir ]>
          (<[ ex_backup_dir := ex_dirty [ex_row 5; ex_row 6; ex_row 7] ]> ex_fs_data))).
Proof.
  eapply (recover_copies_all _ ex_unpack ex_pack ex_fits
            ex_reversible_dir 1024 None ex_now
            (<[ ex_reversible_dir := ex_dirty [ex_row 5; ex_row 6; ex_row 7] ]> ex_fs_data)
            (<[ ex_reversible_dir := PlainDir ]>
               (<[ ex_backup_dir := ex_dirty [ex_row 5; ex_row 6; ex_row 7] ]> ex_fs_data))
            (std_runtime_error "database dirty flag set")
            ex_backup_dir ex_reversible_dir
            {| db_dirty := true; db_index := Some [ex_row 5; ex_row 6; ex_row 7] |}
            fresh_database (ex_row 5) [ex_row 6; ex_row 7]
            [ex_row 5; ex_row 6; ex_row 7] 5).
  - by_evaluation.
  - reflexivity.
  - by_evaluation.
  - by_evaluation.
  - by_evaluation.
  - reflexivity.
  - reflexivity.
  - simpl. repeat split.
  - lia.
  - simpl. lia.
  - repeat constructor; exists [Byte.x01]; split; reflexivity.
  - reflexivity.
Defined.

Lemma recover_nothing_to_copy_witness :
  ex_recover ex_reversible_dir 1024 None ex_now
    (<[ ex_reversible_dir := ex_dirty [] ]> ex_fs_data)
  = (Ok true,
     <[ ex_reversible_dir := ex_clean [] ]>
       (<[ ex_reversible_dir := PlainDir ]> (<[ ex_backup_dir := ex_dirty [] ]> ex_fs_data))) /\
  recovery_summary
    (copy_blocks_nothrow (list Byte.byte) ex_unpack ex_pack ex_fits 1024
       {| db_dirty := true; db_index := Some [] |} fresh_database)
  = NoRecoverableBlocks.
Proof.
  eapply (recover_nothing_to_copy _ ex_unpack ex_pack ex_fits
            ex_reversible_dir 1024 None ex_now
            (<[ ex_reversible_dir := ex_dirty [] ]> ex_fs_data)
            (<[ ex_reversible_dir := PlainDir ]> (<[ ex_backup_dir := ex_dirty [] ]> ex_fs_data))
            (std_runtime_error "database dirty flag set")
            ex_backup_dir ex_reversible_dir
            {| db_dirty := true; db_index := Some [] |} fresh_database).
  - by_evaluation.
  - reflexivity.
  - by_evaluation.
  - by_evaluation.
  - by_evaluation.
  - reflexivity.
Defined.
